(** * batchmail: grouping, sorting, reporting and subject formatting

    A shallow embedding of [batchmail.py].  Python integers are [Z], Python
    strings are [string] (read as UTF-8 bytes), exceptions are values of
    [exn] threaded through the [result] monad, and the [for] loops of the
    source are folds over their iterable carrying the loop variables. *)

From Stdlib Require Import ZArith List String Ascii Bool Lia.
From Stdlib Require Import DecimalString Permutation Sorted.
Import ListNotations.

Open Scope string_scope.
Open Scope list_scope.
Open Scope Z_scope.

(* ================================================================== *)
(** * Definitions *)
(* ================================================================== *)

(** ** Exceptions *)

Inductive exn : Type :=
| Exception (msg : string)
| IndexError
| KeyError (key : string)
| TypeError
| ValueError
| OverflowError.

Inductive result (A : Type) : Type :=
| Return (a : A)
| Raise (e : exn).

Arguments Return {A} a.
Arguments Raise {A} e.

Definition bind {A B} (c : result A) (k : A -> result B) : result B :=
  match c with
  | Return a => k a
  | Raise e => Raise e
  end.

Notation "x <- c ;; k" := (bind c (fun x => k))
  (at level 61, c at next level, right associativity).
Notation "' pat <- c ;; k" := (bind c (fun x => match x with pat => k end))
  (at level 61, pat pattern, c at next level, right associativity).

(** [for x in l: st = body(st, x)], stopping at the first exception. *)
Fixpoint for_each {S A} (body : S -> A -> result S) (st : S) (l : list A)
  : result S :=
  match l with
  | [] => Return st
  | x :: rest => st' <- body st x ;; for_each body st' rest
  end.

(** ** Text *)

Definition chr (n : nat) : string := String (ascii_of_nat n) EmptyString.

(** The double quote and the line feed. *)
Definition dquote : string := chr 34.
Definition newline : string := chr 10.

(** ["%d" % n] and [str(n)] for an [int]. *)
Definition str_of_int (n : Z) : string := NilZero.string_of_int (Z.to_int n).

(** ** Floats

    A finite binary64 value is the dyadic rational [mant * 2^expo].  The
    program never produces an infinity or a NaN. *)

Module Float.

Record t : Type := mk { mant : Z; expo : Z }.

(** [float(n)] for an [int]: [n] rounded to 53 significant bits, ties to
    even; [OverflowError] when the rounded value does not fit binary64. *)
Definition of_int (n : Z) : result t :=
  let a := Z.abs n in
  let bits := Z.log2 a + 1 in
  if bits <=? 53 then Return (mk n 0)
  else
    let sh := bits - 53 in
    let q := a / 2 ^ sh in
    let r := a mod 2 ^ sh in
    let half := 2 ^ (sh - 1) in
    let q' := if (half <? r) || ((r =? half) && Z.odd q) then q + 1 else q in
    if 2 ^ 1024 <=? q' * 2 ^ sh then Raise OverflowError
    else Return (mk (Z.sgn n * q') sh).

(** [x / 2.0**k].  Dividing by a power of two only lowers the exponent;
    it is exact as long as the quotient is not subnormal, which holds in
    this program, where the dividend is at least 1024 in magnitude. *)
Definition div_pow2 (x : t) (k : Z) : t := mk (mant x) (expo x - k).

(** [x / 1024.0] *)
Definition div1024 (x : t) : t := div_pow2 x 10.

(** [abs(x) < b] for an integral bound [b]. *)
Definition abs_ltb (x : t) (b : Z) : bool :=
  if 0 <=? expo x then Z.abs (mant x) * 2 ^ expo x <? b
  else Z.abs (mant x) <? b * 2 ^ (- expo x).

(** [int(x)]: truncation towards zero. *)
Definition trunc (x : t) : Z :=
  if 0 <=? expo x then mant x * 2 ^ expo x
  else Z.quot (mant x) (2 ^ (- expo x)).

(** [abs(x) * 10] rounded to the nearest integer, ties to even: the
    digits of ["%.1f" % x]. *)
Definition round_tenths (x : t) : Z :=
  let a := Z.abs (mant x) * 10 in
  if 0 <=? expo x then a * 2 ^ expo x
  else
    let d := 2 ^ (- expo x) in
    let q := a / d in
    let r := a mod d in
    if (d <? 2 * r) || ((2 * r =? d) && Z.odd q) then q + 1 else q.

(** ["%.1f" % x], which is also ["%3.1f" % x]: the result never has fewer
    than three characters. *)
Definition format_1f (x : t) : string :=
  let tenths := round_tenths x in
  let sign := if mant x <? 0 then "-" else EmptyString in
  (sign ++ str_of_int (tenths / 10) ++ "."
     ++ str_of_int (tenths mod 10))%string.

End Float.

(** A Python number: an [int] or a [float]. *)
Inductive number : Type :=
| Int (n : Z)
| Flt (x : Float.t).

(** ** [sizeof_fmt] *)

(** [abs(num) < 1024.0]; Python compares an [int] with a [float] exactly. *)
Definition abs_lt_1024 (num : number) : bool :=
  match num with
  | Int n => Z.abs n <? 1024
  | Flt x => Float.abs_ltb x 1024
  end.

(** [num / 1024.0]; an [int] is converted to [float] first. *)
Definition truediv_1024 (num : number) : result number :=
  match num with
  | Int n => x <- Float.of_int n ;; Return (Flt (Float.div1024 x))
  | Flt x => Return (Flt (Float.div1024 x))
  end.

(** ["%3.1f" % num] and ["%.1f" % num] *)
Definition format_f (num : number) : result string :=
  match num with
  | Int n => x <- Float.of_int n ;; Return (Float.format_1f x)
  | Flt x => Return (Float.format_1f x)
  end.

(** ["%d" % num] *)
Definition format_d (num : number) : string :=
  match num with
  | Int n => str_of_int n
  | Flt x => str_of_int (Float.trunc x)
  end.

Definition units : list string :=
  [EmptyString; "Ki"; "Mi"; "Gi"; "Ti"; "Pi"; "Ei"; "Zi"].

(** The [for unit in [...]] loop of [sizeof_fmt] over the units that are
    left, and the [return] after it. *)
Fixpoint sizeof_fmt_loop (units : list string) (num : number)
  (suffix : string) : result string :=
  match units with
  | [] => s <- format_f num ;; Return (s ++ "Yi" ++ suffix)%string
  | unit :: rest =>
      if abs_lt_1024 num then
        if negb (String.eqb unit EmptyString) then
          s <- format_f num ;; Return (s ++ unit ++ suffix)%string
        else
          Return (format_d num ++ unit ++ suffix)%string
      else
        num' <- truediv_1024 num ;;
        sizeof_fmt_loop rest num' suffix
  end.

Definition sizeof_fmt (num : number) (suffix : string) : result string :=
  sizeof_fmt_loop units num suffix.

(** The size formatting rule in the words of the specification, for an
    integer number of bytes: below 1024 the integer itself; otherwise the
    first prefix, from [Ki] on, at which the magnitude divided by the
    matching power of 1024 is below 1024, with one decimal; [Yi] when no
    prefix is left. *)
Definition sizeof_fmt_spec (n : Z) (suffix : string) : result string :=
  if Z.abs n <? 1024 then Return (str_of_int n ++ suffix)%string
  else
    x <- Float.of_int n ;;
    match find (fun k => Float.abs_ltb (Float.div_pow2 x (10 * Z.of_nat k)) 1024)
               (seq 1 7) with
    | Some k =>
        Return (Float.format_1f (Float.div_pow2 x (10 * Z.of_nat k))
                  ++ nth k units EmptyString ++ suffix)%string
    | None =>
        Return (Float.format_1f (Float.div_pow2 x 80) ++ "Yi" ++ suffix)%string
    end.

(** ** Metadata records, as [get_meta_data] builds them *)

Module File.
Record date_t : Type := mk_date { modified : Float.t; created : Float.t }.
Record hash_t : Type := mk_hash { md5 : string; sha256 : string }.
Record t : Type := mk {
  name : string;
  path : string;
  size : Z;
  date : date_t;
  hash : hash_t
}.
End File.

Module Image.
Record t : Type := mk {
  format : string;
  size : Z * Z;
  mode : string;
  date : option string;
  device : option string;
  thumbnail : option (list ascii)
}.
End Image.

Record meta : Type := mk_meta {
  file : File.t;
  type_description : option string;
  image : option Image.t
}.

Abbreviation group := (list meta).

(** [sum(x['file']['size'] for x in grp)] *)
Definition att_size (grp : group) : Z :=
  fold_right (fun x acc => File.size (file x) + acc) 0 grp.

(** ** Grouper: [meta_data2groups] *)

(** [groups[-1].append(x)] *)
Fixpoint append_last {A} (groups : list (list A)) (x : A)
  : result (list (list A)) :=
  match groups with
  | [] => Raise IndexError
  | [g] => Return [g ++ [x]]
  | g :: rest => rest' <- append_last rest x ;; Return (g :: rest')
  end.

(** ['file "%s", size %d, exceed max_size %d\n' % (name, size, max_size)] *)
Definition exceed_message (x : meta) (max_size : Z) : string :=
  ("file " ++ dquote ++ File.name (file x) ++ dquote
     ++ ", size " ++ str_of_int (File.size (file x))
     ++ ", exceed max_size " ++ str_of_int max_size ++ newline)%string.

(** One iteration of the loop over [meta_data]; the state is
    [(groups, total_size)]. *)
Definition group_step (max_size : Z) (st : list group * Z) (x : meta)
  : result (list group * Z) :=
  let '(groups, total_size) := st in
  if File.size (file x) >? max_size then
    Raise (Exception (exceed_message x max_size))
  else if File.size (file x) + total_size <? max_size then
    groups' <- append_last groups x ;;
    Return (groups', total_size + File.size (file x))
  else
    Return (groups ++ [[x]], File.size (file x)).

Definition meta_data2groups (meta_data : list meta) (max_size : Z)
  : result (list group) :=
  '(groups, _) <- for_each (group_step max_size) ([[]], 0) meta_data ;;
  Return groups.

(** ** Subject formatter: [groups2subjects] *)

(** A format string, parsed: literal text and [{name}] replacement
    fields, each the name of a keyword argument, without conversion or
    format specification. *)
Inductive piece : Type :=
| Lit (text : string)
| Field (name : string).

(** ['{title} #{num} ({progress}/{total}) {size}'] *)
Definition default_subject_fmt : list piece :=
  [Field "title"; Lit " #"; Field "num"; Lit " ("; Field "progress";
   Lit "/"; Field "total"; Lit ") "; Field "size"].

Definition default_title : string := "batch mailer".

(** The keyword arguments of [str.format], each already converted with
    [str]. *)
Fixpoint keyword (kwargs : list (string * string)) (name : string)
  : result string :=
  match kwargs with
  | [] => Raise (KeyError name)
  | (k, v) :: rest => if String.eqb k name then Return v else keyword rest name
  end.

(** [fmt.format] applied to the keyword arguments [kwargs]. *)
Fixpoint str_format (fmt : list piece) (kwargs : list (string * string))
  : result string :=
  match fmt with
  | [] => Return EmptyString
  | Lit text :: rest =>
      r <- str_format rest kwargs ;; Return (text ++ r)%string
  | Field name :: rest =>
      v <- keyword kwargs name ;;
      r <- str_format rest kwargs ;; Return (v ++ r)%string
  end.

(** [len(grp)] *)
Definition len {A} (l : list A) : Z := Z.of_nat (List.length l).

(** [sum(len(x) for x in groups)] *)
Definition total_len (groups : list group) : Z :=
  fold_right (fun x acc => len x + acc) 0 groups.

(** One iteration of the loop over [enumerate(groups)]; the state is
    [(subjects, progress_tup, i)]. *)
Definition subject_step (title : string) (subject_fmt : list piece)
  (total : Z) (st : list string * (Z * Z) * Z) (grp : group)
  : result (list string * (Z * Z) * Z) :=
  let '(subjects, progress_tup, i) := st in
  let progress_tup := (snd progress_tup + 1, snd progress_tup + len grp) in
  let att_size := att_size grp in
  size <- sizeof_fmt (Int att_size) "B" ;;
  this_subject <-
    str_format subject_fmt
      [("title", title);
       ("num", str_of_int (i + 1));
       ("total", str_of_int total);
       ("size", size);
       ("progress", (str_of_int (fst progress_tup) ++ "-"
                       ++ str_of_int (snd progress_tup))%string)] ;;
  Return (subjects ++ [this_subject], progress_tup, i + 1).

Definition groups2subjects (groups : list group) (title : string)
  (subject_fmt : list piece) : result (list string) :=
  let total := total_len groups in
  '(subjects, _, _) <-
     for_each (subject_step title subject_fmt total) ([], (0, 0), 0) groups ;;
  Return subjects.

(** The subject of the default format, from its fields. *)
Definition default_subject (title : string) (num first last total : Z)
  (size : string) : string :=
  (title ++ " #" ++ str_of_int num ++ " (" ++ str_of_int first ++ "-"
     ++ str_of_int last ++ "/" ++ str_of_int total ++ ") " ++ size)%string.

(** ** Python values

    The values that metadata records are made of, and that the sorter
    walks through: trees in which a [dict] is its items in insertion
    order, with [str] keys as in this program; [VObject] is any other
    object, with the value its [__json__()] method returns when it has
    one. *)

#[local] Unset Elimination Schemes.

Inductive value : Type :=
| VNone
| VBool (b : bool)
| VInt (n : Z)
| VFloat (x : Float.t)
| VStr (s : string)
| VBytes (data : list ascii)
| VTuple (items : list value)
| VList (items : list value)
| VDict (items : list (string * value))
| VObject (json : option value).

#[local] Set Elimination Schemes.

Definition opt_item {A} (key : string) (f : A -> value) (o : option A)
  : list (string * value) :=
  match o with
  | Some a => [(key, f a)]
  | None => []
  end.

(** [meta['image']] *)
Definition image_value (im : Image.t) : value :=
  VDict ([("format", VStr (Image.format im));
          ("size", VTuple [VInt (fst (Image.size im));
                           VInt (snd (Image.size im))]);
          ("mode", VStr (Image.mode im))]
           ++ opt_item "date" VStr (Image.date im)
           ++ opt_item "device" VStr (Image.device im)
           ++ opt_item "thumbnail" VBytes (Image.thumbnail im)).

(** The [dict] that [get_meta_data] returns. *)
Definition meta_value (x : meta) : value :=
  VDict ([("file",
           VDict [("name", VStr (File.name (file x)));
                  ("path", VStr (File.path (file x)));
                  ("size", VInt (File.size (file x)));
                  ("date",
                   VDict [("modified",
                           VFloat (File.modified (File.date (file x))));
                          ("created",
                           VFloat (File.created (File.date (file x))))]);
                  ("hash",
                   VDict [("md5", VStr (File.md5 (File.hash (file x))));
                          ("sha256",
                           VStr (File.sha256 (File.hash (file x))))])]);
          ("type_description",
           match type_description x with
           | Some s => VStr s
           | None => VNone
           end)]
           ++ opt_item "image" image_value (image x)).

(** ** Python objects, as the encoder meets them

    [json_encode] and [group2text] take any object.  An [object] is what
    the encoded object holds, unfolded from it downwards: a [dict] is its
    items in insertion order, with keys of any hashable type; [OInstance]
    is an object of no JSON type, with what its [__json__()] method returns
    when it has one; [OSeen] stands where a list, tuple, dict or instance
    is met again inside itself, which is where the unfolding of a cyclic
    object ends. *)

(** A key of a [dict]; [KOther] is a key of any other type ([bytes], a
    [tuple], ...). *)
Inductive key : Type :=
| KStr (s : string)
| KInt (n : Z)
| KFloat (x : Float.t)
| KBool (b : bool)
| KNone
| KOther.

#[local] Unset Elimination Schemes.

Inductive object : Type :=
| ONone
| OBool (b : bool)
| OInt (n : Z)
| OFloat (x : Float.t)
| OStr (s : string)
| OBytes (data : list ascii)
| OTuple (items : list object)
| OList (items : list object)
| ODict (items : list (key * object))
| OInstance (json : option object)
| OSeen.

#[local] Set Elimination Schemes.

(** A value, which is a tree with [str] keys, as an object. *)
Fixpoint of_value (v : value) : object :=
  match v with
  | VNone => ONone
  | VBool b => OBool b
  | VInt n => OInt n
  | VFloat x => OFloat x
  | VStr s => OStr s
  | VBytes data => OBytes data
  | VTuple items => OTuple (map of_value items)
  | VList items => OList (map of_value items)
  | VDict items => ODict (map (fun '(k, v) => (KStr k, of_value v)) items)
  | VObject None => OInstance None
  | VObject (Some j) => OInstance (Some (of_value j))
  end.

(** The [dict] that [get_meta_data] returns, as the encoder meets it. *)
Definition meta_object (x : meta) : object := of_value (meta_value x).

(** ** Text renderer: [JSONEncoder], [json_encode], [group2text] *)

(** The encoder classes: the library's [json.JSONEncoder] and the subclass
    [JSONEncoder] of this module, which overrides [default]. *)
Inductive encoder_class : Type :=
| json_JSONEncoder
| JSONEncoder.

(** [cls.default(o)] *)
Definition default (cls : encoder_class) (o : object) : result object :=
  match cls with
  | json_JSONEncoder => Raise TypeError
  | JSONEncoder =>
      match o with
      | OInstance (Some j) => Return j
      | _ => Return ONone
      end
  end.

Definition hex_digit (n : nat) : string :=
  String (nth n (list_ascii_of_string "0123456789abcdef") "0"%char) EmptyString.

(** The replacement of one character in a JSON string, without
    [ensure_ascii]: the quote, the backslash and the control characters are
    escaped, everything else is kept. *)
Definition escape_char (c : ascii) : string :=
  let n := nat_of_ascii c in
  if Nat.eqb n 34 then (chr 92 ++ dquote)%string
  else if Nat.eqb n 92 then (chr 92 ++ chr 92)%string
  else if Nat.eqb n 10 then (chr 92 ++ "n")%string
  else if Nat.eqb n 13 then (chr 92 ++ "r")%string
  else if Nat.eqb n 9 then (chr 92 ++ "t")%string
  else if Nat.eqb n 8 then (chr 92 ++ "b")%string
  else if Nat.eqb n 12 then (chr 92 ++ "f")%string
  else if Nat.ltb n 32 then
    (chr 92 ++ "u00" ++ hex_digit (Nat.div n 16)
       ++ hex_digit (Nat.modulo n 16))%string
  else String c EmptyString.

Fixpoint escape (s : string) : string :=
  match s with
  | EmptyString => EmptyString
  | String c rest => (escape_char c ++ escape rest)%string
  end.

(** [encode_basestring(s)] *)
Definition encode_basestring (s : string) : string :=
  (dquote ++ escape s ++ dquote)%string.

Fixpoint spaces (n : nat) : string :=
  match n with
  | O => EmptyString
  | S n' => String " "%char (spaces n')
  end.

(** ['\n' + ' ' * 4 * level] *)
Definition newline_indent (level : nat) : string :=
  (newline ++ spaces (4 * level))%string.

(** The chunks of the items of a container, one after the other with the
    separator between them, up to the first item that raises. *)
Fixpoint join_items (separator : string) (first : bool)
  (chunks : list (result string)) : result string :=
  match chunks with
  | [] => Return EmptyString
  | chunk :: rest =>
      s <- chunk ;;
      r <- join_items separator false rest ;;
      Return ((if first then EmptyString else separator) ++ s ++ r)%string
  end.

(** A container at [level] with [indent=4]: the two brackets alone when it
    is empty, and otherwise its items on lines of their own, one level
    deeper. *)
Definition enclose (opening closing : string) (level : nat)
  (chunks : list (result string)) : result string :=
  match chunks with
  | [] => Return (opening ++ closing)%string
  | _ =>
      body <- join_items ("," ++ newline_indent (S level))%string true chunks ;;
      Return (opening ++ newline_indent (S level) ++ body
                ++ newline_indent level ++ closing)%string
  end.

Section Encoder.

(** [float.__repr__], the shortest decimal that reads back as the same
    float. *)
Variable float_repr : Float.t -> string.

Variable cls : encoder_class.

(** The key of an item in [_iterencode_dict]: a [str] is kept, a [float],
    [bool], [None] or [int] is converted, and a key of another type raises
    [TypeError], since [skipkeys] is not set. *)
Definition encode_key (k : key) : result string :=
  match k with
  | KStr s => Return s
  | KFloat x => Return (float_repr x)
  | KBool true => Return "true"
  | KBool false => Return "false"
  | KNone => Return "null"
  | KInt n => Return (str_of_int n)
  | KOther => Raise TypeError
  end.

(** [_iterencode(o, level)] with [indent=4] and [check_circular], the
    chunks joined.  An object of no JSON type goes through [default], and
    what [default] returns is encoded in its place; [iterencode_default]
    below states this branch in that form.  A container or instance that
    is met again inside itself is found among the markers, which raises
    [ValueError]. *)
Fixpoint iterencode (level : nat) (o : object) {struct o} : result string :=
  match o with
  | OStr s => Return (encode_basestring s)
  | ONone => Return "null"
  | OBool true => Return "true"
  | OBool false => Return "false"
  | OInt n => Return (str_of_int n)
  | OFloat x => Return (float_repr x)
  | OList items => enclose "[" "]" level (map (iterencode (S level)) items)
  | OTuple items => enclose "[" "]" level (map (iterencode (S level)) items)
  | ODict items =>
      enclose "{" "}" level
        (map (fun '(k, v) =>
                k <- encode_key k ;;
                s <- iterencode (S level) v ;;
                Return (encode_basestring k ++ ": " ++ s)%string)
             items)
  | OBytes _ => _ <- default cls o ;; Return "null"
  | OInstance None => _ <- default cls o ;; Return "null"
  | OInstance (Some j) => _ <- default cls o ;; iterencode level j
  | OSeen => Raise ValueError
  end.

End Encoder.

(** [json_encode(obj, indent=4)], that is
    [json.dumps(obj, cls=JSONEncoder, ensure_ascii=False, indent=4)] *)
Definition json_encode (float_repr : Float.t -> string) (obj : object)
  : result string :=
  iterencode float_repr JSONEncoder 0 obj.

Definition group2text (float_repr : Float.t -> string) (grp : list object)
  : result string :=
  json_encode float_repr (OList grp).


(** The keys that the encoder writes. *)
Definition key_accepted (k : key) : bool :=
  match k with
  | KOther => false
  | _ => true
  end.

(** Every key of every [dict] in [o] is a [str], [int], [float], [bool] or
    [None], and nothing in [o] holds itself. *)
Fixpoint encodable (o : object) : bool :=
  match o with
  | OTuple items => forallb encodable items
  | OList items => forallb encodable items
  | ODict items =>
      forallb (fun '(k, v) => key_accepted k && encodable v) items
  | OInstance (Some j) => encodable j
  | OSeen => false
  | _ => true
  end.


(** What a call comes to: it returns when [ok] holds, and raises
    [TypeError] or [ValueError] when it does not. *)
Definition outcome {A} (ok : bool) (r : result A) : Prop :=
  if ok then exists a, r = Return a
  else r = Raise TypeError \/ r = Raise ValueError.

(** ** Sorter: [sort_meta_data_list] *)

(** [ordered_by.split('.')] *)
Fixpoint split_dots (s : string) : list string :=
  match s with
  | EmptyString => [EmptyString]
  | String c rest =>
      if Ascii.eqb c "."%char then EmptyString :: split_dots rest
      else
        match split_dots rest with
        | [] => [String c EmptyString]
        | head :: tail => String c head :: tail
        end
  end.

Fixpoint dict_get (items : list (string * value)) (x : string)
  : option value :=
  match items with
  | [] => None
  | (k, v) :: rest => if String.eqb k x then Some v else dict_get rest x
  end.

(** [a[x]] when [isinstance(a, dict) and x in a], and [None] when that
    test fails. *)
Definition subscript (a : value) (x : string) : option value :=
  match a with
  | VDict items => dict_get items x
  | _ => None
  end.

(** The value of a record at the end of a path, when every segment is
    there. *)
Fixpoint lookup_path (path : list string) (a : value) : option value :=
  match path with
  | [] => Some a
  | x :: rest =>
      match subscript a x with
      | Some a' => lookup_path rest a'
      | None => None
      end
  end.

(** The record lacks some segment of the dotted key path. *)
Definition lacks_path (ordered_by : string) (a : value) : bool :=
  match lookup_path (split_dots ordered_by) a with
  | Some _ => false
  | None => true
  end.

Section Sorter.

(** Python's [a < b] and [a > b] on the values found at the end of the
    path; they raise [TypeError] on operands that have no order. *)
Variables lt gt : value -> value -> result bool.

Definition cmp (a b : value) : result Z :=
  c <- lt a b ;;
  if c then Return (-1)
  else
    d <- gt a b ;;
    if d then Return 1 else Return 0.

(** The body of [key_cmp]: the loop over the segments that are left, and
    the [return cmp(a, b)] after it. *)
Fixpoint key_cmp_loop (path : list string) (a b : value) : result Z :=
  match path with
  | [] => cmp a b
  | x :: rest =>
      match subscript a x with
      | None => Return (-1)
      | Some a' =>
          match subscript b x with
          | None => Return 1
          | Some b' => key_cmp_loop rest a' b'
          end
      end
  end.

Definition key_cmp (ordered_by : string) (a b : value) : result Z :=
  key_cmp_loop (split_dots ordered_by) a b.

(** [K(a) < K(b)] for [K = functools.cmp_to_key(key_cmp)] *)
Definition key_lt (ordered_by : string) (a b : value) : result bool :=
  c <- key_cmp ordered_by a b ;; Return (c <? 0).

End Sorter.

(** [list.sort] as CPython runs it on a list of fewer than 64 items, where
    the whole list is one run: [count_run] finds the run at the head, a
    descending run is reversed, and [binarysort] inserts the remaining
    items one by one.  From 64 items on CPython merges several such runs,
    which is not modelled. *)
Section ListSort.

Context {A : Type}.

(** [ISLT(x, y)]: the [<] of the items, which may raise. *)
Variable islt : A -> A -> result bool.

(** How many of [items] continue the run that ends with [prev]. *)
Fixpoint run_length (descending : bool) (prev : A) (items : list A)
  : result nat :=
  match items with
  | [] => Return O
  | x :: rest =>
      b <- islt x prev ;;
      if Bool.eqb b descending then
        n <- run_length descending x rest ;; Return (S n)
      else Return O
  end.

(** [count_run]: the length of the run at the head of the list and whether
    it descends. *)
Definition count_run (l : list A) : result (nat * bool) :=
  match l with
  | [] => Return (O, false)
  | [_] => Return (1%nat, false)
  | x0 :: x1 :: rest =>
      descending <- islt x1 x0 ;;
      n <- run_length descending x1 rest ;;
      Return (S (S n), descending)
  end.

(** The binary search of [binarysort] for the place of [pivot] in
    [sorted], between [l] and [r].  The interval shrinks at every turn;
    [fuel] bounds the number of turns. *)
Fixpoint bisect (fuel : nat) (sorted : list A) (pivot : A) (l r : nat)
  : result nat :=
  match fuel with
  | O => Return l
  | S fuel' =>
      if Nat.ltb l r then
        let p := (l + Nat.div (r - l) 2)%nat in
        match nth_error sorted p with
        | None => Raise IndexError
        | Some y =>
            b <- islt pivot y ;;
            if b then bisect fuel' sorted pivot l p
            else bisect fuel' sorted pivot (S p) r
        end
      else Return l
  end.

Definition insert_at (pos : nat) (pivot : A) (sorted : list A) : list A :=
  firstn pos sorted ++ pivot :: skipn pos sorted.

(** [binarysort]: [sorted] is the sorted prefix, [rest] the items still to
    insert. *)
Fixpoint binarysort (sorted rest : list A) : result (list A) :=
  match rest with
  | [] => Return sorted
  | pivot :: rest' =>
      pos <- bisect (List.length sorted) sorted pivot O (List.length sorted) ;;
      binarysort (insert_at pos pivot sorted) rest'
  end.

Definition list_sort (l : list A) : result (list A) :=
  if Nat.ltb (List.length l) 2 then Return l
  else
    '(n, descending) <- count_run l ;;
    let run := firstn n l in
    let run := if descending then rev run else run in
    binarysort run (skipn n l).

(** [l.sort(reverse=reverse)]: a reverse sort reverses the list, sorts it
    forward and reverses the result. *)
Definition list_sort_reverse (reverse : bool) (l : list A)
  : result (list A) :=
  if reverse then
    out <- list_sort (rev l) ;; Return (rev out)
  else list_sort l.

End ListSort.

Definition sort_meta_data_list (lt gt : value -> value -> result bool)
  (metas : list value) (ordered_by : string) (reverse : bool)
  : result (list value) :=
  list_sort_reverse (key_lt lt gt ordered_by) reverse metas.

(** Every item of the class [low] stands before every item outside it. *)
Definition low_first {A} (low : A -> bool) (l : list A) : Prop :=
  exists ms hs,
    l = ms ++ hs /\
    Forall (fun a => low a = true) ms /\
    Forall (fun a => low a = false) hs.

(** No comparison between two items of [l] raises. *)
Definition total_on {A} (islt : A -> A -> result bool) (l : list A) : Prop :=
  forall a b, In a l -> In b l -> exists c, islt a b = Return c.

(** [a < b] and [a > b] between two [int]s and between two [str]s, for
    examples; other operands are left out and raise. *)
Definition simple_lt (a b : value) : result bool :=
  match a, b with
  | VInt x, VInt y => Return (x <? y)
  | VStr x, VStr y => Return (String.ltb x y)
  | _, _ => Raise TypeError
  end.

Definition simple_gt (a b : value) : result bool := simple_lt b a.

(** What the loop guarantees of a group: it is below the bound, or it is a
    single record of exactly [max_size], or it is the empty group the loop
    started with. *)
Definition group_fits (max_size : Z) (g : group) : Prop :=
  att_size g < max_size \/
  (exists x, g = [x] /\ File.size (file x) = max_size) \/
  g = [].

(** A record of a plain file (no type description, not an image), for
    examples. *)
Definition plain_file (name : string) (size : Z) : meta :=
  {| file := {| File.name := name;
                File.path := name;
                File.size := size;
                File.date := File.mk_date (Float.mk 0 0) (Float.mk 0 0);
                File.hash := File.mk_hash EmptyString EmptyString |};
     type_description := None;
     image := None |}.

(** A group is closed only when the next record does not fit: for two
    groups in a row, the total of the first with the first record of the
    second reaches [max_size]. *)
Fixpoint greedy (max_size : Z) (groups : list group) : Prop :=
  match groups with
  | [] => True
  | g :: later =>
      match later with
      | [] => True
      | next :: _ =>
          match next with
          | [] => False
          | x :: _ => max_size <= att_size g + File.size (file x)
          end /\ greedy max_size later
      end
  end.

(** The comparison of the items of [l] is the strict part of the total
    preorder [le]: [x < y] exactly when not [y <= x], and it never
    raises. *)
Definition agrees {A} (islt : A -> A -> result bool) (le : A -> A -> bool)
  (l : list A) : Prop :=
  forall a b, In a l -> In b l -> islt a b = Return (negb (le b a)).

(** [z] has the same key as [k]. *)
Definition same_key {A} (le : A -> A -> bool) (k z : A) : bool :=
  le k z && le z k.

(** A sort result: in the order [le], or in the reverse of it, and stable
    (items of the same key stand as they stood in the input). *)
Definition stable_sorted {A} (le : A -> A -> bool) (reverse : bool)
  (input out : list A) : Prop :=
  StronglySorted
    (fun a b => if reverse then le b a = true else le a b = true) out /\
  forall k, filter (same_key le k) out = filter (same_key le k) input.

(** The value of a record at the end of the path ([None] when the record
    lacks the path), and the order of records by that value. *)
Definition leaf_of (ordered_by : string) (a : value) : value :=
  match lookup_path (split_dots ordered_by) a with
  | Some leaf => leaf
  | None => VNone
  end.

Definition record_le (le_leaf : value -> value -> bool)
  (ordered_by : string) (a b : value) : bool :=
  le_leaf (leaf_of ordered_by a) (leaf_of ordered_by b).

(** The order of [int]s, with every other value counted as 0, for
    examples. *)
Definition int_le (x y : value) : bool :=
  let int_of v := match v with VInt n => n | _ => 0 end in
  int_of x <=? int_of y.

(** ** [Email]

    An [Email] instance is its attributes; each one holds any Python
    value. *)

Record Email : Type := mk_Email {
  from_ : value;
  to : value;
  cc : value;
  bcc : value;
  subject : value;
  text : value;
  html : value;
  attachments : value;
  smtp : value;
  user_name : value;
  password : value;
  mode : value
}.

(** [Email()]: the defaults of [__init__]. *)
Definition Email_init : Email :=
  {| from_ := VNone; to := VList []; cc := VList []; bcc := VList [];
     subject := VStr EmptyString; text := VNone; html := VNone;
     attachments := VList []; smtp := VNone; user_name := VNone;
     password := VNone; mode := VStr "tls" |}.

(** The attributes that [__json__] and [from_json] go through. *)
Inductive attribute : Type :=
| a_to | a_cc | a_bcc | a_subject | a_text | a_html | a_attachments
| a_smtp | a_user_name | a_mode.

(** [('to', 'cc', 'bcc', 'subject', 'text', 'html', 'attachments', 'smtp',
    'user_name', 'mode')] *)
Definition json_attributes : list attribute :=
  [a_to; a_cc; a_bcc; a_subject; a_text; a_html; a_attachments; a_smtp;
   a_user_name; a_mode].

Definition attribute_name (x : attribute) : string :=
  match x with
  | a_to => "to" | a_cc => "cc" | a_bcc => "bcc" | a_subject => "subject"
  | a_text => "text" | a_html => "html" | a_attachments => "attachments"
  | a_smtp => "smtp" | a_user_name => "user_name" | a_mode => "mode"
  end.

Definition getattr (e : Email) (x : attribute) : value :=
  match x with
  | a_to => to e | a_cc => cc e | a_bcc => bcc e | a_subject => subject e
  | a_text => text e | a_html => html e | a_attachments => attachments e
  | a_smtp => smtp e | a_user_name => user_name e | a_mode => mode e
  end.

Definition setattr (e : Email) (x : attribute) (v : value) : Email :=
  match x with
  | a_to =>
      mk_Email (from_ e) v (cc e) (bcc e) (subject e) (text e) (html e)
        (attachments e) (smtp e) (user_name e) (password e) (mode e)
  | a_cc =>
      mk_Email (from_ e) (to e) v (bcc e) (subject e) (text e) (html e)
        (attachments e) (smtp e) (user_name e) (password e) (mode e)
  | a_bcc =>
      mk_Email (from_ e) (to e) (cc e) v (subject e) (text e) (html e)
        (attachments e) (smtp e) (user_name e) (password e) (mode e)
  | a_subject =>
      mk_Email (from_ e) (to e) (cc e) (bcc e) v (text e) (html e)
        (attachments e) (smtp e) (user_name e) (password e) (mode e)
  | a_text =>
      mk_Email (from_ e) (to e) (cc e) (bcc e) (subject e) v (html e)
        (attachments e) (smtp e) (user_name e) (password e) (mode e)
  | a_html =>
      mk_Email (from_ e) (to e) (cc e) (bcc e) (subject e) (text e) v
        (attachments e) (smtp e) (user_name e) (password e) (mode e)
  | a_attachments =>
      mk_Email (from_ e) (to e) (cc e) (bcc e) (subject e) (text e) (html e)
        v (smtp e) (user_name e) (password e) (mode e)
  | a_smtp =>
      mk_Email (from_ e) (to e) (cc e) (bcc e) (subject e) (text e) (html e)
        (attachments e) v (user_name e) (password e) (mode e)
  | a_user_name =>
      mk_Email (from_ e) (to e) (cc e) (bcc e) (subject e) (text e) (html e)
        (attachments e) (smtp e) v (password e) (mode e)
  | a_mode =>
      mk_Email (from_ e) (to e) (cc e) (bcc e) (subject e) (text e) (html e)
        (attachments e) (smtp e) (user_name e) (password e) v
  end.

(** [instance.from_ = v] *)
Definition set_from (e : Email) (v : value) : Email :=
  mk_Email v (to e) (cc e) (bcc e) (subject e) (text e) (html e)
    (attachments e) (smtp e) (user_name e) (password e) (mode e).

(** [d[k] = v]: the value of an existing key is replaced, a new key goes
    last. *)
Fixpoint dict_set (items : list (string * value)) (k : string) (v : value)
  : list (string * value) :=
  match items with
  | [] => [(k, v)]
  | (k', v') :: rest =>
      if String.eqb k' k then (k, v) :: rest
      else (k', v') :: dict_set rest k v
  end.

(** The test of [__json__] turned around: [attr is None or attr == []]. *)
Definition left_out (attr : value) : bool :=
  match attr with
  | VNone => true
  | VList [] => true
  | _ => false
  end.

(** [Email.__json__] *)
Definition Email_json (e : Email) : value :=
  VDict
    (fold_left
       (fun ret x =>
          let attr := getattr e x in
          if negb (left_out attr) then dict_set ret (attribute_name x) attr
          else ret)
       json_attributes [("from", from_ e)]).

(** [Email.from_json], over the parser [json.loads]. *)
Definition Email_from_json (loads : string -> result value)
  (js_str : string) : result Email :=
  js <- loads js_str ;;
  let instance := Email_init in
  match js with
  | VDict items =>
      match dict_get items "from" with
      | None => Raise (KeyError "from")
      | Some v =>
          let instance := set_from instance v in
          Return
            (fold_left
               (fun instance x =>
                  match dict_get items (attribute_name x) with
                  | Some v => setattr instance x v
                  | None => instance
                  end)
               json_attributes instance)
      end
  | _ => Raise TypeError
  end.

(** An attribute after a round trip: what was left out comes back as the
    default of [__init__]. *)
Definition restored (x : attribute) (attr : value) : value :=
  if left_out attr then getattr Email_init x else attr.

(** ** [send_grouped_files] *)

(** [x < y] between two floats. *)
Definition float_ltb (x y : Float.t) : bool :=
  let e := Z.min (Float.expo x) (Float.expo y) in
  Float.mant x * 2 ^ (Float.expo x - e)
  <? Float.mant y * 2 ^ (Float.expo y - e).

(** The values of the dict [sort_func]: no key, a key that is an [int], a
    key that is a [float]. *)
Inductive sort_key : Type :=
| key_none
| key_int (f : string -> Z)
| key_float (f : string -> Float.t).

Section SendGroupedFiles.

(** The file system, as [os.path] reports it for the files at hand. *)
Variable getsize : string -> Z.
Variables getmtime getctime getatime : string -> Float.t.

(** [eml.send()]: the instance as the call leaves it, and [str] of what it
    returns. *)
Variable send : Email -> result (Email * string).

(** [sort_func[ordered_by]] *)
Definition sort_func (ordered_by : string) : result sort_key :=
  if String.eqb ordered_by "file_name" then Return key_none
  else if String.eqb ordered_by "size" then Return (key_int getsize)
  else if String.eqb ordered_by "date" then Return (key_float getmtime)
  else if String.eqb ordered_by "time" then Return (key_float getmtime)
  else if String.eqb ordered_by "modified" then Return (key_float getmtime)
  else if String.eqb ordered_by "created" then Return (key_float getctime)
  else if String.eqb ordered_by "accessed" then Return (key_float getatime)
  else Raise (KeyError ordered_by).

(** The [<] that [files.sort(key=...)] compares two files with. *)
Definition file_lt (key : sort_key) (a b : string) : result bool :=
  match key with
  | key_none => Return (String.ltb a b)
  | key_int f => Return (f a <? f b)
  | key_float f => Return (float_ltb (f a) (f b))
  end.

(** ['file "%s", size %d, exceed max_size %d\n' % (files[i], x, max_size)] *)
Definition file_exceed_message (f : string) (x max_size : Z) : string :=
  ("file " ++ dquote ++ f ++ dquote ++ ", size " ++ str_of_int x
     ++ ", exceed max_size " ++ str_of_int max_size ++ newline)%string.

(** One iteration of the grouping loop; [x] is [files_size[i]], the size
    of [files[i]]. *)
Definition file_group_step (max_size : Z) (st : list (list string) * Z)
  (f : string) : result (list (list string) * Z) :=
  let '(groups, total_size) := st in
  let x := getsize f in
  if x >? max_size then
    Raise (Exception (file_exceed_message f x max_size))
  else if x + total_size <? max_size then
    groups' <- append_last groups f ;;
    Return (groups', total_size + x)
  else
    Return (groups ++ [[f]], x).

(** The groups that the first loop builds. *)
Definition file_groups (files : list string) (max_size : Z)
  : result (list (list string)) :=
  '(groups, _) <- for_each (file_group_step max_size) ([[]], 0) files ;;
  Return groups.

(** One iteration of the sending loop; the state is the instance [eml] and
    what has been sent and printed so far. *)
Definition send_step (st : Email * list (Email * string))
  (task : nat * list string) : result (Email * list (Email * string)) :=
  let '(eml, done) := st in
  let '(i, attachments) := task in
  let eml :=
    setattr eml a_subject
      (VStr ("batch mailer task " ++ str_of_int (Z.of_nat i))%string) in
  let eml := setattr eml a_text (VStr (String.concat newline attachments)) in
  let eml := setattr eml a_attachments (VList (map VStr attachments)) in
  '(eml', ret) <- send eml ;;
  Return (eml',
          done ++ [(eml, ("task: " ++ str_of_int (Z.of_nat i) ++ newline
                            ++ ret ++ newline ++ newline)%string)]).

(** [files] after [if ordered_by is not None: files.sort(key=...)]; the
    sort is [list.sort] as above, for fewer than 64 files. *)
Definition sorted_files (files : list string) (ordered_by : option string)
  : result (list string) :=
  match ordered_by with
  | None => Return files
  | Some name => key <- sort_func name ;; list_sort (file_lt key) files
  end.

(** [send_grouped_files(from_, to, files, ordered_by, max_size, kwd)];
    [kwd] is [Email] with the remaining keyword arguments.  The result is
    the list of the instances handed to [send], each with the text printed
    after it. *)
Definition send_grouped_files (sender : value) (recipients : value)
  (files : list string) (ordered_by : option string) (max_size : Z)
  (kwd : Email) : result (list (Email * string)) :=
  let recipients :=
    match recipients with
    | VNone => VList [sender]
    | _ => recipients
    end in
  files <- sorted_files files ordered_by ;;
  groups <- file_groups files max_size ;;
  let eml := setattr (set_from kwd sender) a_to recipients in
  '(_, done) <-
     for_each send_step (eml, [])
       (combine (seq 0 (List.length groups)) groups) ;;
  Return done.

End SendGroupedFiles.

(** ** [files2groups], [group2Email], [groups2Emails] *)

(** [[f(x) for x in l]], stopping at the first exception. *)
Fixpoint map_result {A B} (f : A -> result B) (l : list A)
  : result (list B) :=
  match l with
  | [] => Return []
  | x :: rest => y <- f x ;; ys <- map_result f rest ;; Return (y :: ys)
  end.

(** The capture date of a record: [x['image']['date']] when it is there. *)
Definition exif_date (x : meta) : option string :=
  match image x with
  | Some im => Image.date im
  | None => None
  end.

(** [[x['file']['path'] for x in grp]] *)
Definition paths (grp : group) : value :=
  VList (map (fun x => VStr (File.path (file x))) grp).

Section Pipeline.

Variables lt gt : value -> value -> result bool.

(** [get_meta_data(file_name, thumbnail_size)], which reads the file. *)
Variable get_meta_data : string -> Z -> result meta.

(** [float.__repr__] and [group2html], which the properties below do not
    look into. *)
Variable float_repr : Float.t -> string.
Variable group2html : group -> result string.

Definition files2meta_data_list (files : list string) (thumbnail_size : Z)
  : result (list meta) :=
  map_result (fun x => get_meta_data x thumbnail_size) files.

(** [sort_meta_data_list] on metadata records, each of them the dict that
    [meta_value] gives. *)
Definition sort_records (metas : list meta) (ordered_by : string)
  (reverse : bool) : result (list meta) :=
  list_sort_reverse
    (fun a b => key_lt lt gt ordered_by (meta_value a) (meta_value b))
    reverse metas.

(** [files2groups(files, max_size, ordered_by, thumbnail_size=...,
    reverse=...)] *)
Definition files2groups (files : list string) (max_size : Z)
  (ordered_by : option string) (thumbnail_size : Z) (reverse : bool)
  : result (list group) :=
  metas <- files2meta_data_list files thumbnail_size ;;
  metas <-
    match ordered_by with
    | None => Return metas
    | Some key => sort_records metas key reverse
    end ;;
  meta_data2groups metas max_size.

(** [group2Email(grp, subject, kwd)]; [kwd] is [Email] with the keyword
    arguments. *)
Definition group2Email (kwd : Email) (grp : group) (subject : value)
  : result Email :=
  let eml := kwd in
  let eml := setattr eml a_subject subject in
  text <- group2text float_repr (map meta_object grp) ;;
  let eml := setattr eml a_text (VStr text) in
  html <- group2html grp ;;
  let eml := setattr eml a_html (VStr html) in
  let eml := setattr eml a_attachments (paths grp) in
  Return eml.

(** One iteration of the loop of [groups2Emails].  The call
    [group2Email(grp, subject=subjects[i], kwd)] names [subject] itself, so
    a [kwd] that holds a [subject] too ([subject_given]) makes the call
    raise [TypeError], once [subjects[i]] has been evaluated. *)
Definition email_step (subjects : list string) (subject_given : bool)
  (kwd : Email) (emails : list Email) (task : nat * group)
  : result (list Email) :=
  let '(i, grp) := task in
  match nth_error subjects i with
  | None => Raise IndexError
  | Some subject =>
      if subject_given then Raise TypeError
      else
        eml <- group2Email kwd grp (VStr subject) ;;
        Return (emails ++ [eml])
  end.

(** [groups2Emails(groups, kwd)], with the [title] and [subject_fmt] that
    [kwd] passes on to [groups2subjects]; [kwd] is [Email] with the keyword
    arguments, and [subject_given] tells whether [subject] is one of
    them. *)
Definition groups2Emails (groups : list group) (title : string)
  (subject_fmt : list piece) (subject_given : bool) (kwd : Email)
  : result (list Email) :=
  subjects <- groups2subjects groups title subject_fmt ;;
  for_each (email_step subjects subject_given kwd)
    [] (combine (seq 0 (List.length groups)) groups).

End Pipeline.

(** A record of an image with a capture date, for examples. *)
Definition photo (name : string) (size : Z) (taken : string) : meta :=
  {| file := file (plain_file name size);
     type_description := None;
     image := Some {| Image.format := "JPEG";
                      Image.size := (4, 3);
                      Image.mode := "RGB";
                      Image.date := Some taken;
                      Image.device := None;
                      Image.thumbnail := None |} |}.






(* ================================================================== *)
(** * Properties *)
(* ================================================================== *)

(** ** Loops *)

Lemma for_each_app {S A} (body : S -> A -> result S) (l1 l2 : list A) :
  forall st,
    for_each body st (l1 ++ l2) =
    (st' <- for_each body st l1 ;; for_each body st' l2).
Proof.
  induction l1 as [|x l1 IH]; intros st; simpl; [reflexivity|].
  destruct (body st x) as [st'|e]; simpl; [apply IH | reflexivity].
Qed.

(** ** Grouper *)

Section Grouper.

Variable max_size : Z.

Lemma append_last_snoc {A} (G : list (list A)) (g : list A) (x : A) :
  append_last (G ++ [g]) x = Return (G ++ [g ++ [x]]).
Proof.
  induction G as [|h G IH]; simpl; [reflexivity|].
  rewrite IH. destruct (G ++ [g]) eqn:E; [|reflexivity].
  destruct G; discriminate.
Qed.

(** A step from a state whose last group is [cur]. *)
Lemma group_step_snoc G cur total x :
  group_step max_size (G ++ [cur], total) x =
  if File.size (file x) >? max_size then
    Raise (Exception (exceed_message x max_size))
  else if File.size (file x) + total <? max_size then
    Return (G ++ [cur ++ [x]], total + File.size (file x))
  else
    Return ((G ++ [cur]) ++ [[x]], File.size (file x)).
Proof.
  unfold group_step. rewrite append_last_snoc. reflexivity.
Qed.

(** The loop only ever touches the last group: the groups before it are
    carried along unchanged. *)
Lemma group_loop_frame l :
  forall G cur total,
    for_each (group_step max_size) (G ++ [cur], total) l =
    ('(groups, t) <- for_each (group_step max_size) ([cur], total) l ;;
     Return (G ++ groups, t)).
Proof.
  induction l as [|x l IH]; intros G cur total.
  - reflexivity.
  - cbn [for_each].
    rewrite group_step_snoc.
    pose proof (group_step_snoc [] cur total x) as E.
    cbn [app] in E. rewrite E. clear E.
    destruct (File.size (file x) >? max_size); [reflexivity|].
    destruct (File.size (file x) + total <? max_size); cbn [bind].
    + rewrite IH. reflexivity.
    + rewrite (IH (G ++ [cur])).
      pose proof (IH [cur] [x] (File.size (file x))) as E.
      cbn [app] in E. rewrite E. clear E.
      destruct (for_each (group_step max_size) ([[x]], File.size (file x)) l)
        as [[gs t]|e];
        cbn [bind]; [|reflexivity].
      rewrite <- app_assoc. reflexivity.
Qed.

(** Running the loop from a single open group [cur]: when no record is
    larger than [max_size] the loop returns, and the groups it returns
    concatenate to [cur] followed by the records consumed. *)
Lemma group_loop_returns l :
  forall cur total,
    Forall (fun x => File.size (file x) <= max_size) l ->
    exists gs t,
      for_each (group_step max_size) ([cur], total) l = Return (gs, t) /\
      List.concat gs = cur ++ l /\ gs <> [].
Proof.
  induction l as [|x l IH]; intros cur total Hall.
  - exists [cur], total. cbn. rewrite !app_nil_r. repeat split. discriminate.
  - inversion Hall as [|? ? Hx Hl]; subst.
    cbn [for_each].
    pose proof (group_step_snoc [] cur total x) as E.
    cbn [app] in E. rewrite E. clear E.
    destruct (Z.gtb_spec (File.size (file x)) max_size) as [Hgt|_]; [lia|].
    destruct (File.size (file x) + total <? max_size); cbn [bind].
    + destruct (IH (cur ++ [x]) (total + File.size (file x)) Hl)
        as (gs & t & -> & Hc & Hne).
      exists gs, t. rewrite Hc, <- app_assoc. repeat split. exact Hne.
    + pose proof (group_loop_frame l [cur] [x] (File.size (file x))) as E.
      cbn [app] in E. rewrite E. clear E.
      destruct (IH [x] (File.size (file x)) Hl) as (gs & t & -> & Hc & _).
      cbn [bind]. exists (cur :: gs), t.
      cbn [List.concat]. rewrite Hc. repeat split. discriminate.
Qed.

(** Whatever the loop returns concatenates to the input. *)
Lemma group_loop_concat l :
  forall cur total gs t,
    for_each (group_step max_size) ([cur], total) l = Return (gs, t) ->
    List.concat gs = cur ++ l.
Proof.
  induction l as [|x l IH]; intros cur total gs t.
  - cbn. intros [= <- <-]. cbn. now rewrite !app_nil_r.
  - cbn [for_each].
    pose proof (group_step_snoc [] cur total x) as E.
    cbn [app] in E. rewrite E. clear E.
    destruct (File.size (file x) >? max_size); [discriminate|].
    destruct (File.size (file x) + total <? max_size); cbn [bind].
    + intros H. apply IH in H. now rewrite H, <- app_assoc.
    + pose proof (group_loop_frame l [cur] [x] (File.size (file x))) as E.
      cbn [app] in E. rewrite E. clear E.
      destruct (for_each (group_step max_size) ([[x]], File.size (file x)) l)
        as [[gs' t']|e] eqn:El; cbn [bind]; [|discriminate].
      intros [= <- <-]. apply IH in El. cbn [List.concat]. now rewrite El.
Qed.

(** The first record larger than [max_size] aborts the loop with the
    message built from that record. *)
Lemma group_loop_raises pre x post :
  forall cur total,
    Forall (fun y => File.size (file y) <= max_size) pre ->
    max_size < File.size (file x) ->
    for_each (group_step max_size) ([cur], total) (pre ++ x :: post) =
    Raise (Exception (exceed_message x max_size)).
Proof.
  intros cur total Hpre Hx. rewrite for_each_app.
  destruct (group_loop_returns pre cur total Hpre) as (gs & t & -> & _ & Hne).
  cbn [bind for_each].
  destruct (exists_last Hne) as (G & g & ->).
  rewrite group_step_snoc.
  destruct (Z.gtb_spec (File.size (file x)) max_size); [reflexivity | lia].
Qed.

(** With sizes that are not negative the running total is not either. *)
Lemma group_loop_total l :
  forall cur total gs t,
    Forall (fun x => 0 <= File.size (file x)) l ->
    0 <= total ->
    for_each (group_step max_size) ([cur], total) l = Return (gs, t) ->
    0 <= t.
Proof.
  induction l as [|x l IH]; intros cur total gs t Hall Ht.
  - cbn. now intros [= <- <-].
  - inversion Hall as [|? ? Hx Hl]; subst.
    cbn [for_each].
    pose proof (group_step_snoc [] cur total x) as E.
    cbn [app] in E. rewrite E. clear E.
    destruct (File.size (file x) >? max_size); [discriminate|].
    destruct (File.size (file x) + total <? max_size); cbn [bind].
    + apply IH; [exact Hl | lia].
    + pose proof (group_loop_frame l [cur] [x] (File.size (file x))) as E.
      cbn [app] in E. rewrite E. clear E.
      destruct (for_each (group_step max_size) ([[x]], File.size (file x)) l)
        as [[gs' t']|e] eqn:El; cbn [bind]; [|discriminate].
      intros [= <- <-]. eapply IH; eauto.
Qed.

(** Once the running total has reached [max_size], the open group is
    closed for good: every later record goes to a group after it. *)
Lemma group_loop_sealed l cur total :
  Forall (fun x => 0 <= File.size (file x) <= max_size) l ->
  max_size <= total ->
  exists gs t,
    for_each (group_step max_size) ([cur], total) l = Return (cur :: gs, t) /\
    List.concat gs = l.
Proof.
  intros Hall Ht. destruct l as [|y l].
  - exists [], total. split; reflexivity.
  - inversion Hall as [|? ? Hy Hl]; subst.
    cbn [for_each].
    pose proof (group_step_snoc [] cur total y) as E.
    cbn [app] in E. rewrite E. clear E.
    destruct (Z.gtb_spec (File.size (file y)) max_size); [lia|].
    destruct (Z.ltb_spec (File.size (file y) + total) max_size); [lia|].
    cbn [bind].
    pose proof (group_loop_frame l [cur] [y] (File.size (file y))) as E.
    cbn [app] in E. rewrite E. clear E.
    destruct (group_loop_returns l [y] (File.size (file y)))
      as (gs & t & -> & Hc & _).
    { eapply Forall_impl; [|exact Hl]. cbn. lia. }
    cbn [bind]. exists gs, t. split; [reflexivity | exact Hc].
Qed.

Lemma att_size_snoc g x :
  att_size (g ++ [x]) = att_size g + File.size (file x).
Proof.
  unfold att_size. induction g as [|y g IH]; cbn; [lia|].
  cbn in IH. rewrite IH. lia.
Qed.

Lemma group_loop_fits l :
  forall cur total gs t,
    group_fits max_size cur -> total = att_size cur ->
    for_each (group_step max_size) ([cur], total) l = Return (gs, t) ->
    Forall (group_fits max_size) gs.
Proof.
  induction l as [|x l IH]; intros cur total gs t Hcur Htot.
  - cbn. intros [= <- <-]. now constructor.
  - cbn [for_each].
    pose proof (group_step_snoc [] cur total x) as E.
    cbn [app] in E. rewrite E. clear E.
    destruct (Z.gtb_spec (File.size (file x)) max_size); [discriminate|].
    destruct (Z.ltb_spec (File.size (file x) + total) max_size); cbn [bind].
    + apply IH.
      * left. rewrite att_size_snoc. lia.
      * rewrite att_size_snoc. lia.
    + pose proof (group_loop_frame l [cur] [x] (File.size (file x))) as E.
      cbn [app] in E. rewrite E. clear E.
      destruct (for_each (group_step max_size) ([[x]], File.size (file x)) l)
        as [[gs' t']|e] eqn:El; cbn [bind]; [|discriminate].
      intros [= <- <-]. constructor; [exact Hcur|].
      eapply IH; [| |exact El].
      * destruct (Z.eq_dec (File.size (file x)) max_size) as [Heq|Hne].
        -- right. left. now exists x.
        -- left. cbn. lia.
      * cbn. lia.
Qed.

End Grouper.

Lemma first_oversized (max_size : Z) (l : list meta) :
  Exists (fun x => max_size < File.size (file x)) l ->
  exists pre x post,
    l = pre ++ x :: post /\
    Forall (fun y => File.size (file y) <= max_size) pre /\
    max_size < File.size (file x).
Proof.
  induction 1 as [x l Hx | x l _ IH].
  - exists [], x, l. repeat split; [constructor | exact Hx].
  - destruct (Z_lt_le_dec max_size (File.size (file x))) as [Hx|Hx].
    + exists [], x, l. repeat split; [constructor | exact Hx].
    + destruct IH as (pre & y & post & -> & Hpre & Hy).
      exists (x :: pre), y, post. repeat split; [now constructor | exact Hy].
Qed.

(** What [meta_data2groups] does guarantee of the group totals. *)
Lemma meta_data2groups_fits meta_data max_size groups :
  meta_data2groups meta_data max_size = Return groups ->
  Forall (group_fits max_size) groups.
Proof.
  unfold meta_data2groups.
  destruct (for_each (group_step max_size) ([[]], 0) meta_data)
    as [[gs t]|e] eqn:E; cbn [bind]; [|discriminate].
  intros [= <-]. eapply group_loop_fits; [| |exact E].
  - right. right. reflexivity.
  - reflexivity.
Qed.

(** C1 (the code departs from its docstring, "each group is smaller than
    max_size"): a record of exactly [max_size] bytes is accepted and forms a
    group whose total is [max_size], which is not strictly below the
    bound. *)
Theorem meta_data2groups_total_reaches_bound :
  meta_data2groups [plain_file "a" 10] 10 = Return [[]; [plain_file "a" 10]]
  /\ att_size [plain_file "a" 10] = 10
  /\ ~ (forall groups,
          meta_data2groups [plain_file "a" 10] 10 = Return groups ->
          Forall (fun g => att_size g < 10) groups).
Proof.
  split; [reflexivity|]. split; [reflexivity|].
  intros H. specialize (H _ eq_refl).
  inversion H as [|? ? _ H1]; subst.
  inversion H1 as [|? ? H2 _]; subst.
  cbn in H2. lia.
Qed.

(** C2: when some record is larger than [max_size], the call raises, no
    group is returned, and the message is the one built from the first such
    record: its file name, its size and the limit.  A call raises only for
    such a record: with every size at most [max_size] it returns. *)
Theorem meta_data2groups_oversized meta_data max_size :
  (Exists (fun x => max_size < File.size (file x)) meta_data ->
   exists pre x post,
     meta_data = pre ++ x :: post /\
     Forall (fun y => File.size (file y) <= max_size) pre /\
     max_size < File.size (file x) /\
     meta_data2groups meta_data max_size =
       Raise (Exception (exceed_message x max_size)) /\
     exceed_message x max_size =
       ("file " ++ dquote ++ File.name (file x) ++ dquote ++ ", size "
          ++ str_of_int (File.size (file x)) ++ ", exceed max_size "
          ++ str_of_int max_size ++ newline)%string) /\
  (Forall (fun x => File.size (file x) <= max_size) meta_data ->
   exists groups, meta_data2groups meta_data max_size = Return groups) /\
  (forall e, meta_data2groups meta_data max_size = Raise e ->
   exists x, In x meta_data /\ max_size < File.size (file x) /\
             e = Exception (exceed_message x max_size)).
Proof.
  assert (Hraise :
    Exists (fun x => max_size < File.size (file x)) meta_data ->
    exists pre x post,
      meta_data = pre ++ x :: post /\
      Forall (fun y => File.size (file y) <= max_size) pre /\
      max_size < File.size (file x) /\
      meta_data2groups meta_data max_size =
        Raise (Exception (exceed_message x max_size))).
  { intros H. destruct (first_oversized _ _ H) as (pre & x & post & -> & Hp & Hx).
    exists pre, x, post. repeat split; try assumption.
    unfold meta_data2groups. now rewrite group_loop_raises. }
  assert (Hret :
    Forall (fun x => File.size (file x) <= max_size) meta_data ->
    exists groups, meta_data2groups meta_data max_size = Return groups).
  { intros H. unfold meta_data2groups.
    destruct (group_loop_returns max_size meta_data [] 0 H) as (gs & t & -> & _).
    now exists gs. }
  split; [|split].
  - intros H. destruct (Hraise H) as (pre & x & post & H1 & H2 & H3 & H4).
    exists pre, x, post. repeat split; assumption.
  - exact Hret.
  - intros e He.
    destruct (Forall_Exists_dec (fun x => File.size (file x) <= max_size)
                (fun x => Z_le_dec (File.size (file x)) max_size) meta_data)
      as [Hall|Hex].
    + destruct (Hret Hall) as (groups & Hg). congruence.
    + assert (Hex' : Exists (fun x => max_size < File.size (file x)) meta_data).
      { eapply Exists_impl; [|exact Hex]. cbn. lia. }
      destruct (Hraise Hex') as (pre & x & post & -> & _ & Hx & Hr).
      exists x. split; [apply in_elt|]. split; [exact Hx | congruence].
Qed.

Lemma meta_data2groups_oversized_witness :
  meta_data2groups [plain_file "a" 3; plain_file "b" 11; plain_file "c" 12] 10
    = Raise (Exception (exceed_message (plain_file "b" 11) 10))
  /\ exists groups,
       meta_data2groups [plain_file "a" 3; plain_file "b" 4] 10 = Return groups.
Proof.
  split.
  - destruct (meta_data2groups_oversized
                [plain_file "a" 3; plain_file "b" 11; plain_file "c" 12] 10)
      as (H & _ & _).
    destruct H as (pre & x & post & Hl & Hpre & Hx & Hr & _).
    { right. left. cbn. lia. }
    reflexivity.
  - destruct (meta_data2groups_oversized
                [plain_file "a" 3; plain_file "b" 4] 10) as (_ & H & _).
    apply H. repeat constructor; cbn; lia.
Defined.

(** C3: when the call succeeds, the returned groups, concatenated in order,
    are the input list. *)
Theorem meta_data2groups_concat meta_data max_size groups :
  meta_data2groups meta_data max_size = Return groups ->
  List.concat groups = meta_data.
Proof.
  unfold meta_data2groups.
  destruct (for_each (group_step max_size) ([[]], 0) meta_data)
    as [[gs t]|e] eqn:E; cbn [bind]; [|discriminate].
  intros [= <-]. apply group_loop_concat in E. exact E.
Qed.

Lemma meta_data2groups_concat_witness :
  List.concat [[plain_file "a" 4; plain_file "b" 3]; [plain_file "c" 5]]
  = [plain_file "a" 4; plain_file "b" 3; plain_file "c" 5].
Proof.
  apply (meta_data2groups_concat
           [plain_file "a" 4; plain_file "b" 3; plain_file "c" 5] 10).
  reflexivity.
Defined.

(** C4: on the empty list the call returns exactly one group, the empty
    one, whatever the bound. *)
Theorem meta_data2groups_empty max_size :
  meta_data2groups [] max_size = Return [[]].
Proof. reflexivity. Qed.

(** C9: a record of exactly [max_size] bytes raises no error and is
    returned alone in a group of its own, started for it, whose total is
    [max_size]; the groups before it hold the records before it and the
    groups after it the records after it.  (File sizes are not negative.) *)
Theorem meta_data2groups_exact_size pre x post max_size :
  Forall (fun y => 0 <= File.size (file y) <= max_size) (pre ++ x :: post) ->
  File.size (file x) = max_size ->
  exists before after,
    meta_data2groups (pre ++ x :: post) max_size
      = Return (before ++ [x] :: after) /\
    before <> [] /\
    List.concat before = pre /\
    List.concat after = post /\
    att_size [x] = max_size.
Proof.
  intros Hall Hx.
  apply Forall_app in Hall. destruct Hall as [Hpre Hrest].
  inversion Hrest as [|? ? Hx' Hpost]; subst.
  unfold meta_data2groups. rewrite for_each_app.
  destruct (group_loop_returns (File.size (file x)) pre [] 0)
    as (gs & t & E & Hc & Hne).
  { eapply Forall_impl; [|exact Hpre]. cbn. lia. }
  rewrite E. cbn [bind for_each].
  assert (Ht : 0 <= t).
  { eapply group_loop_total; [| |exact E]; [|lia].
    eapply Forall_impl; [|exact Hpre]. cbn. lia. }
  destruct (exists_last Hne) as (G & g & ->).
  rewrite group_step_snoc.
  destruct (Z.gtb_spec (File.size (file x)) (File.size (file x))); [lia|].
  destruct (Z.ltb_spec (File.size (file x) + t) (File.size (file x))); [lia|].
  cbn [bind]. rewrite group_loop_frame.
  destruct (group_loop_sealed (File.size (file x)) post [x] (File.size (file x)))
    as (after & t' & -> & Hafter); [exact Hpost | lia |].
  cbn [bind]. exists (G ++ [g]), after.
  repeat split; try assumption.
  cbn. lia.
Qed.

Lemma meta_data2groups_exact_size_witness :
  exists before after,
    meta_data2groups ([plain_file "a" 4] ++ plain_file "b" 10 :: [plain_file "c" 0]) 10
      = Return (before ++ [plain_file "b" 10] :: after) /\
    before <> [] /\
    List.concat before = [plain_file "a" 4] /\
    List.concat after = [plain_file "c" 0] /\
    att_size [plain_file "b" 10] = 10.
Proof.
  apply (meta_data2groups_exact_size [plain_file "a" 4] (plain_file "b" 10)
           [plain_file "c" 0] 10).
  - repeat constructor; cbn; lia.
  - reflexivity.
Defined.

(** ** Size formatting *)

Lemma div1024_div_pow2 (x : Float.t) (k : Z) :
  Float.div1024 (Float.div_pow2 x k) = Float.div_pow2 x (k + 10).
Proof.
  unfold Float.div1024, Float.div_pow2. cbn. f_equal. lia.
Qed.

(** The loop of [sizeof_fmt] computes the rule of the specification. *)
Lemma sizeof_fmt_refines_spec (n : Z) (suffix : string) :
  sizeof_fmt (Int n) suffix = sizeof_fmt_spec n suffix.
Proof.
  unfold sizeof_fmt, sizeof_fmt_spec, units.
  cbn [sizeof_fmt_loop abs_lt_1024 String.eqb negb format_d].
  destruct (Z.abs n <? 1024); [reflexivity|].
  cbn [truediv_1024]. destruct (Float.of_int n) as [x|e]; cbn [bind];
    [|reflexivity].
  change (Float.div1024 x) with (Float.div_pow2 x 10).
  cbn [seq find Z.of_nat Pos.of_succ_nat Pos.succ Z.mul Pos.mul Pos.add nth].
  repeat
    (cbn [sizeof_fmt_loop abs_lt_1024 truediv_1024 format_f bind];
     match goal with
     | |- context [Float.abs_ltb (Float.div_pow2 x ?k) 1024] =>
         destruct (Float.abs_ltb (Float.div_pow2 x k) 1024);
         [reflexivity|]
     end;
     cbn [bind]; rewrite div1024_div_pow2;
     cbn [Z.add Pos.add Pos.succ Pos.add_carry]).
  reflexivity.
Qed.

(** C7: [sizeof_fmt] gives "0B", "1.0KiB" and "1.5KiB" for 0, 1024 and
    1536, and on every integer it follows the rule of the specification:
    the integer itself below 1024, otherwise one decimal at the first
    prefix where the magnitude is below 1024, with [Yi] as the last
    resort. *)
Theorem sizeof_fmt_rule :
  sizeof_fmt (Int 0) "B" = Return "0B" /\
  sizeof_fmt (Int 1024) "B" = Return "1.0KiB" /\
  sizeof_fmt (Int 1536) "B" = Return "1.5KiB" /\
  forall n suffix, sizeof_fmt (Int n) suffix = sizeof_fmt_spec n suffix.
Proof.
  split; [vm_compute; reflexivity|].
  split; [vm_compute; reflexivity|].
  split; [vm_compute; reflexivity|].
  apply sizeof_fmt_refines_spec.
Qed.

(** An integer below [2^1023] in magnitude converts to a float. *)
Lemma of_int_returns (n : Z) :
  Z.abs n < 2 ^ 1023 -> exists x, Float.of_int n = Return x.
Proof.
  intros Hn. unfold Float.of_int.
  destruct (Z.log2 (Z.abs n) + 1 <=? 53) eqn:Hb; [eauto|].
  apply Z.leb_gt in Hb.
  set (a := Z.abs n) in *. set (sh := Z.log2 a + 1 - 53) in *.
  assert (Ha : 0 < a).
  { destruct (Z.eq_dec a 0) as [E|E]; [rewrite E in Hb; cbn in Hb; lia|].
    subst a. lia. }
  assert (Hsh : 0 < sh) by (subst sh; lia).
  pose proof (Z.log2_spec a Ha) as [Hlo Hhi].
  assert (Hpow : 2 ^ Z.succ (Z.log2 a) = 2 ^ 53 * 2 ^ sh).
  { rewrite <- Z.pow_add_r by lia. f_equal. subst sh. lia. }
  assert (Hlog : Z.log2 a < 1023).
  { apply Z.log2_lt_pow2; [lia|exact Hn]. }
  assert (H2sh : 0 < 2 ^ sh) by (apply Z.pow_pos_nonneg; lia).
  assert (Hq : a / 2 ^ sh < 2 ^ 53).
  { apply Z.div_lt_upper_bound; [exact H2sh|]. rewrite Z.mul_comm. lia. }
  match goal with
  | |- context [if ?c then a / 2 ^ sh + 1 else a / 2 ^ sh] =>
      set (q' := if c then a / 2 ^ sh + 1 else a / 2 ^ sh)
  end.
  assert (Hq' : q' <= 2 ^ 53).
  { subst q'. destruct (_ || _); lia. }
  assert (Hbound : q' * 2 ^ sh <= 2 ^ 1023).
  { apply Z.le_trans with (2 ^ 53 * 2 ^ sh).
    - apply Z.mul_le_mono_nonneg_r; lia.
    - rewrite <- Hpow. apply Z.pow_le_mono_r; lia. }
  destruct (Z.leb_spec (2 ^ 1024) (q' * 2 ^ sh)) as [Hov|_]; [|eauto].
  assert (2 ^ 1023 < 2 ^ 1024) by (apply Z.pow_lt_mono_r; lia).
  lia.
Qed.

Lemma sizeof_fmt_returns (n : Z) (suffix : string) :
  Z.abs n < 2 ^ 1023 -> exists s, sizeof_fmt (Int n) suffix = Return s.
Proof.
  intros Hn. rewrite sizeof_fmt_refines_spec. unfold sizeof_fmt_spec.
  destruct (Z.abs n <? 1024); [eauto|].
  destruct (of_int_returns n Hn) as [x ->]. cbn [bind].
  destruct (find _ _); eauto.
Qed.

(** ** Subjects *)

Lemma append_empty_r (s : string) : (s ++ EmptyString)%string = s.
Proof. induction s as [|c s IH]; cbn; [reflexivity | now rewrite IH]. Qed.

Lemma append_assoc (s1 s2 s3 : string) :
  ((s1 ++ s2) ++ s3 = s1 ++ (s2 ++ s3))%string.
Proof. induction s1 as [|c s IH]; cbn; [reflexivity | now rewrite IH]. Qed.

(** One iteration with the default format. *)
Lemma subject_step_default title total subjects p0 p1 i grp size :
  sizeof_fmt (Int (att_size grp)) "B" = Return size ->
  subject_step title default_subject_fmt total (subjects, (p0, p1), i) grp =
  Return (subjects
            ++ [default_subject title (i + 1) (p1 + 1) (p1 + len grp)
                  total size],
          (p1 + 1, p1 + len grp), i + 1).
Proof.
  intros Hsize. unfold subject_step. rewrite Hsize. cbn [bind fst snd].
  unfold default_subject_fmt.
  cbn [str_format keyword bind].
  repeat match goal with
         | |- context [String.eqb ?a ?b] =>
             let v := eval vm_compute in (String.eqb a b) in
             change (String.eqb a b) with v; cbn iota
         end.
  cbn [bind]. unfold default_subject.
  rewrite append_empty_r, !append_assoc. reflexivity.
Qed.

(** The loop of [groups2subjects], from any state: it adds one subject per
    group, and the range of each subject continues where the range before
    it ended. *)
Lemma subject_loop title total l :
  forall subjects p0 p1 i,
    Forall (fun g => Z.abs (att_size g) < 2 ^ 1023) l ->
    exists new p0',
      for_each (subject_step title default_subject_fmt total)
               (subjects, (p0, p1), i) l
      = Return (subjects ++ new, (p0', p1 + total_len l), i + len l) /\
      List.length new = List.length l /\
      forall j g,
        nth_error l j = Some g ->
        exists size,
          sizeof_fmt (Int (att_size g)) "B" = Return size /\
          nth_error new j =
            Some (default_subject title (i + Z.of_nat j + 1)
                    (p1 + total_len (firstn j l) + 1)
                    (p1 + total_len (firstn j l) + len g)
                    total size).
Proof.
  induction l as [|g l IH]; intros subjects p0 p1 i Hall.
  - exists [], p0. rewrite app_nil_r.
    replace (p1 + total_len []) with p1 by (cbn; lia).
    replace (i + len (@nil group)) with i by (unfold len; cbn; lia).
    repeat split. intros [|j] g; discriminate.
  - inversion Hall as [|? ? Hg Hl]; subst.
    destruct (sizeof_fmt_returns (att_size g) "B" Hg) as [size Hsize].
    cbn [for_each]. rewrite (subject_step_default _ _ _ _ _ _ _ _ Hsize).
    cbn [bind].
    destruct (IH (subjects ++
                    [default_subject title (i + 1) (p1 + 1) (p1 + len g)
                       total size])
                 (p1 + 1) (p1 + len g) (i + 1) Hl)
      as (new & p0' & -> & Hlen & Hnth).
    exists (default_subject title (i + 1) (p1 + 1) (p1 + len g) total size
              :: new), p0'.
    repeat split.
    + rewrite <- app_assoc. cbn [app].
      replace (p1 + len g + total_len l) with (p1 + total_len (g :: l))
        by (cbn [total_len fold_right]; fold (total_len l); lia).
      replace (i + 1 + len l) with (i + len (g :: l))
        by (unfold len; cbn [List.length]; lia).
      reflexivity.
    + cbn. now rewrite Hlen.
    + intros [|j] g' Hj.
      * cbn in Hj. injection Hj as <-. exists size. split; [exact Hsize|].
        cbn. do 2 f_equal; lia.
      * cbn in Hj. destruct (Hnth j g' Hj) as (size' & Hs' & Hn').
        exists size'. split; [exact Hs'|].
        cbn [nth_error firstn total_len fold_right]. fold (total_len (firstn j l)).
        rewrite Hn'. do 2 f_equal; lia.
Qed.

(** C6: with the default format there is one subject per group, in order;
    the subject of the group at index [i] carries the number [i + 1], the
    range from one past the files of the groups before it to the files of
    the groups up to it, and the total number of files of all groups.  The
    ranges never start over.  (The group totals are within the range of a
    float, as [sizeof_fmt] needs.) *)
Theorem groups2subjects_progress (groups : list group) (title : string) :
  Forall (fun g => Z.abs (att_size g) < 2 ^ 1023) groups ->
  exists subjects,
    groups2subjects groups title default_subject_fmt = Return subjects /\
    List.length subjects = List.length groups /\
    forall i g,
      nth_error groups i = Some g ->
      exists size,
        sizeof_fmt (Int (att_size g)) "B" = Return size /\
        nth_error subjects i =
          Some (default_subject title (Z.of_nat i + 1)
                  (total_len (firstn i groups) + 1)
                  (total_len (firstn i groups) + len g)
                  (total_len groups) size).
Proof.
  intros Hall. unfold groups2subjects.
  destruct (subject_loop title (total_len groups) groups [] 0 0 0 Hall)
    as (new & p0' & -> & Hlen & Hnth).
  cbn [bind app]. exists new. repeat split; [exact Hlen|].
  intros i g Hi. destruct (Hnth i g Hi) as (size & Hs & Hn).
  exists size. split; [exact Hs|]. rewrite Hn. reflexivity.
Qed.

Lemma groups2subjects_progress_witness :
  exists subjects,
    groups2subjects
      [[plain_file "a" 4194304; plain_file "b" 3145728];
       [plain_file "c" 5242880]] "T" default_subject_fmt = Return subjects /\
    List.length subjects = 2%nat.
Proof.
  destruct (groups2subjects_progress
              [[plain_file "a" 4194304; plain_file "b" 3145728];
               [plain_file "c" 5242880]] "T") as (subjects & H & Hlen & _).
  - repeat constructor; vm_compute; reflexivity.
  - exists subjects. split; [exact H | exact Hlen].
Defined.

(** The worked example of the specification: 4 MiB, 3 MiB and 5 MiB under
    a bound of 10 MiB. *)
Example end_to_end :
  (groups <- meta_data2groups
               [plain_file "a" 4194304; plain_file "b" 3145728;
                plain_file "c" 5242880] 10485760 ;;
   groups2subjects groups "T" default_subject_fmt)
  = Return ["T #1 (1-2/3) 7.0MiB"; "T #2 (3-3/3) 5.0MiB"].
Proof. vm_compute. reflexivity. Qed.

(** C10: on the single empty group that partitioning an empty input
    returns, the default format and title give exactly one subject,
    [batch mailer #1 (1-0/0) 0B]: the range starts at 1 and ends at 0, and
    the total is 0. *)
Theorem groups2subjects_empty_group :
  groups2subjects [[]] default_title default_subject_fmt
    = Return ["batch mailer #1 (1-0/0) 0B"] /\
  (forall max_size,
     (groups <- meta_data2groups [] max_size ;;
      groups2subjects groups default_title default_subject_fmt)
     = Return ["batch mailer #1 (1-0/0) 0B"]) /\
  for_each (subject_step default_title default_subject_fmt (total_len [[]]))
           ([], (0, 0), 0) [[]]
    = Return (["batch mailer #1 (1-0/0) 0B"], (1, 0), 1) /\
  total_len [[]] = 0.
Proof.
  repeat split; intros; vm_compute; reflexivity.
Qed.

(** ** Python values *)

(** Induction on a value, with the property available for the values
    nested in it. *)
Lemma value_induction (P : value -> Prop) :
  P VNone ->
  (forall b, P (VBool b)) ->
  (forall n, P (VInt n)) ->
  (forall x, P (VFloat x)) ->
  (forall s, P (VStr s)) ->
  (forall data, P (VBytes data)) ->
  (forall items, Forall P items -> P (VTuple items)) ->
  (forall items, Forall P items -> P (VList items)) ->
  (forall items, Forall (fun kv => P (snd kv)) items -> P (VDict items)) ->
  P (VObject None) ->
  (forall j, P j -> P (VObject (Some j))) ->
  forall v, P v.
Proof.
  intros HNone HBool HInt HFloat HStr HBytes HTuple HList HDict HObj0 HObj.
  fix IH 1. intros [ | b | n | x | s | data | items | items | items | [j|] ].
  - exact HNone.
  - apply HBool.
  - apply HInt.
  - apply HFloat.
  - apply HStr.
  - apply HBytes.
  - apply HTuple. induction items as [|v items IHitems]; constructor;
      [apply IH | exact IHitems].
  - apply HList. induction items as [|v items IHitems]; constructor;
      [apply IH | exact IHitems].
  - apply HDict. induction items as [|[k v] items IHitems]; constructor;
      [apply IH | exact IHitems].
  - apply HObj. apply IH.
  - exact HObj0.
Qed.

(** ** Text renderer *)

(** Induction on an object, with the property available for the objects
    nested in it. *)
Lemma object_induction (P : object -> Prop) :
  P ONone ->
  (forall b, P (OBool b)) ->
  (forall n, P (OInt n)) ->
  (forall x, P (OFloat x)) ->
  (forall s, P (OStr s)) ->
  (forall data, P (OBytes data)) ->
  (forall items, Forall P items -> P (OTuple items)) ->
  (forall items, Forall P items -> P (OList items)) ->
  (forall items, Forall (fun kv => P (snd kv)) items -> P (ODict items)) ->
  P (OInstance None) ->
  (forall j, P j -> P (OInstance (Some j))) ->
  P OSeen ->
  forall o, P o.
Proof.
  intros HNone HBool HInt HFloat HStr HBytes HTuple HList HDict HObj0 HObj
    HSeen.
  fix IH 1. intros [ | b | n | x | s | data | items | items | items | [j|] | ].
  - exact HNone.
  - apply HBool.
  - apply HInt.
  - apply HFloat.
  - apply HStr.
  - apply HBytes.
  - apply HTuple. induction items as [|v items IHitems]; constructor;
      [apply IH | exact IHitems].
  - apply HList. induction items as [|v items IHitems]; constructor;
      [apply IH | exact IHitems].
  - apply HDict. induction items as [|[k v] items IHitems]; constructor;
      [apply IH | exact IHitems].
  - apply HObj. apply IH.
  - exact HObj0.
  - exact HSeen.
Qed.

(** The branch of [iterencode] for an object of no JSON type is
    [o = _default(o)] followed by the encoding of the new [o]. *)
Lemma iterencode_default float_repr cls level o :
  (exists data, o = OBytes data) \/ (exists j, o = OInstance j) ->
  iterencode float_repr cls level o =
  (o' <- default cls o ;; iterencode float_repr cls level o').
Proof.
  intros [[data ->] | [[j|] ->]]; destruct cls; reflexivity.
Qed.

Lemma join_items_outcome {A} separator (ok : A -> bool)
  (f : A -> result string) items :
  Forall (fun a => outcome (ok a) (f a)) items ->
  forall first,
    outcome (forallb ok items) (join_items separator first (map f items)).
Proof.
  induction 1 as [|a l Ha _ IH]; intros first;
    cbn [map join_items forallb].
  - cbn. eauto.
  - unfold outcome in Ha. destruct (ok a); cbn [andb].
    + destruct Ha as [s ->]. cbn [bind]. specialize (IH false).
      unfold outcome in *. destruct (forallb ok l).
      * destruct IH as [r ->]. cbn [bind]. eauto.
      * destruct IH as [-> | ->]; cbn [bind]; auto.
    + destruct Ha as [-> | ->]; cbn; auto.
Qed.

Lemma enclose_outcome {A} opening closing level (ok : A -> bool)
  (f : A -> result string) items :
  Forall (fun a => outcome (ok a) (f a)) items ->
  outcome (forallb ok items) (enclose opening closing level (map f items)).
Proof.
  intros H. destruct items as [|a l]; [cbn; eauto|].
  pose proof (join_items_outcome ("," ++ newline_indent (S level))%string
                ok f (a :: l) H true) as J.
  unfold enclose. cbn [map] in *. unfold outcome in *.
  destruct (forallb ok (a :: l)).
  - destruct J as [body ->]. cbn [bind]. eauto.
  - destruct J as [-> | ->]; cbn [bind]; auto.
Qed.

(** The encoder of this module returns on the objects that are
    [encodable], and raises on the others. *)
Lemma iterencode_outcome float_repr :
  forall o level,
    outcome (encodable o) (iterencode float_repr JSONEncoder level o).
Proof.
  induction o as [ | b | n | x | s | data | items IH | items IH | items IH
                 | | j IH | ] using object_induction; intros level;
    try (cbn; eauto; fail).
  - destruct b; cbn; eauto.
  - cbn [iterencode encodable]. apply enclose_outcome.
    eapply Forall_impl; [|exact IH]. intros a Ha. apply Ha.
  - cbn [iterencode encodable]. apply enclose_outcome.
    eapply Forall_impl; [|exact IH]. intros a Ha. apply Ha.
  - cbn [iterencode encodable]. apply enclose_outcome.
    eapply Forall_impl; [|exact IH]. intros [k v] Hv. cbn [snd] in Hv.
    specialize (Hv (S level)). unfold outcome in *.
    destruct k as [ks | kn | kx | [|] | | ];
      cbn [key_accepted andb encode_key bind]; auto;
      (destruct (encodable v);
       [destruct Hv as [s ->]; cbn [bind]; eauto
       | destruct Hv as [-> | ->]; cbn [bind]; auto]).
Qed.

Lemma of_value_encodable : forall v, encodable (of_value v) = true.
Proof.
  induction v as [ | b | n | x | s | data | items IH | items IH | items IH
                 | | j IH ] using value_induction;
    try reflexivity.
  - cbn [of_value encodable]. induction IH as [|v l Hv _ IHl]; [reflexivity|].
    cbn [map forallb]. rewrite Hv, IHl. reflexivity.
  - cbn [of_value encodable]. induction IH as [|v l Hv _ IHl]; [reflexivity|].
    cbn [map forallb]. rewrite Hv, IHl. reflexivity.
  - cbn [of_value encodable].
    induction IH as [|[k v] l Hv _ IHl]; [reflexivity|].
    cbn [map forallb key_accepted andb snd] in *. rewrite Hv, IHl.
    reflexivity.
  - exact IH.
Qed.

(** Metadata records are rendered, whatever they hold. *)
Lemma group2text_records float_repr (grp : list meta) :
  exists text, group2text float_repr (map meta_object grp) = Return text.
Proof.
  assert (E : forallb encodable (map meta_object grp) = true).
  { induction grp as [|x l IH]; [reflexivity|].
    cbn [map forallb]. unfold meta_object at 1.
    rewrite of_value_encodable. exact IH. }
  pose proof (iterencode_outcome float_repr (OList (map meta_object grp)) 0)
    as H.
  cbn [encodable] in H. rewrite E in H. exact H.
Qed.



(** With the library's own [default] the same call fails on a thumbnail. *)
Lemma base_encoder_raises float_repr (data : list ascii) :
  iterencode float_repr json_JSONEncoder 0
    (OList [ODict [(KStr "thumbnail", OBytes data)]]) = Raise TypeError.
Proof. reflexivity. Qed.




(** A record with a thumbnail, rendered. *)
Example group2text_thumbnail :
  group2text (fun _ => "0.0")
    [of_value
       (VDict [("image", VDict [("size", VTuple [VInt 4; VInt 3]);
                                ("thumbnail", VBytes ["a"%char])])])]
  = Return ("[" ++ newline
     ++ "    {" ++ newline
     ++ "        " ++ dquote ++ "image" ++ dquote ++ ": {" ++ newline
     ++ "            " ++ dquote ++ "size" ++ dquote ++ ": [" ++ newline
     ++ "                4," ++ newline
     ++ "                3" ++ newline
     ++ "            ]," ++ newline
     ++ "            " ++ dquote ++ "thumbnail" ++ dquote ++ ": null" ++ newline
     ++ "        }" ++ newline
     ++ "    }" ++ newline
     ++ "]")%string.
Proof. vm_compute. reflexivity. Qed.

(** ** Sorting *)

Lemma bisect_turn {A} (islt : A -> A -> result bool) fuel sorted pivot l r :
  bisect islt (S fuel) sorted pivot l r =
  if Nat.ltb l r then
    match nth_error sorted (l + Nat.div (r - l) 2) with
    | None => Raise IndexError
    | Some y =>
        b <- islt pivot y ;;
        if b then bisect islt fuel sorted pivot l (l + Nat.div (r - l) 2)
        else bisect islt fuel sorted pivot (S (l + Nat.div (r - l) 2)) r
    end
  else Return l.
Proof. reflexivity. Qed.

(** The binary search needs no more turns than the width of its interval:
    fuel beyond that changes nothing. *)
Lemma bisect_fuel {A} (islt : A -> A -> result bool) sorted pivot :
  forall fuel l r,
    (r - l <= fuel)%nat ->
    bisect islt (S fuel) sorted pivot l r = bisect islt fuel sorted pivot l r.
Proof.
  induction fuel as [|fuel IH]; intros l r Hfuel.
  - rewrite bisect_turn. destruct (Nat.ltb_spec l r); [lia | reflexivity].
  - rewrite (bisect_turn islt fuel sorted pivot l r).
    rewrite (bisect_turn islt (S fuel) sorted pivot l r).
    destruct (Nat.ltb_spec l r) as [Hlt|]; [|reflexivity].
    assert (Nat.div (r - l) 2 < r - l)%nat by (apply Nat.div_lt; lia).
    destruct (nth_error sorted (l + Nat.div (r - l) 2)); [|reflexivity].
    destruct (islt pivot a) as [[|]|e]; cbn [bind]; [| |reflexivity].
    + apply IH. lia.
    + apply IH. lia.
Qed.

Section SortClasses.

Context {A : Type}.
Variable islt : A -> A -> result bool.
Variable low : A -> bool.

(** The comparison puts the class [low] strictly below the rest. *)
Hypothesis low_high :
  forall a b, low a = true -> low b = false -> islt a b = Return true.
Hypothesis high_low :
  forall a b, low a = false -> low b = true -> islt a b = Return false.

Lemma low_first_nil : low_first low [].
Proof. exists [], []. repeat split; constructor. Qed.

Lemma low_first_cons_low a l :
  low a = true -> low_first low l -> low_first low (a :: l).
Proof.
  intros Ha (ms & hs & -> & Hm & Hh).
  exists (a :: ms), hs. repeat split; [now constructor | exact Hh].
Qed.

Lemma low_first_all_high l :
  Forall (fun a => low a = false) l -> low_first low l.
Proof. intros H. exists [], l. repeat split; [constructor | exact H]. Qed.

Lemma low_first_all_low l :
  Forall (fun a => low a = true) l -> low_first low l.
Proof.
  intros H. exists l, []. rewrite app_nil_r. repeat split; [exact H | constructor].
Qed.

Lemma low_first_snoc_high l a :
  low a = false -> low_first low l -> low_first low (l ++ [a]).
Proof.
  intros Ha (ms & hs & -> & Hm & Hh).
  exists ms, (hs ++ [a]). rewrite app_assoc. repeat split; [exact Hm|].
  apply Forall_app. split; [exact Hh | now repeat constructor].
Qed.

(** A list that starts outside [low] holds no item of [low]. *)
Lemma low_first_high_head a l :
  low a = false -> low_first low (a :: l) ->
  Forall (fun x => low x = false) (a :: l).
Proof.
  intros Ha (ms & hs & E & Hm & Hh).
  destruct ms as [|m ms]; cbn in E.
  - now subst hs.
  - injection E as <- _. inversion Hm; subst. congruence.
Qed.

(** A list that ends in [low] holds only items of [low]. *)
Lemma low_first_low_last l a :
  low a = true -> low_first low (l ++ [a]) ->
  Forall (fun x => low x = true) (l ++ [a]).
Proof.
  intros Ha (ms & hs & E & Hm & Hh).
  destruct hs as [|h hs] using rev_ind.
  - rewrite app_nil_r in E. now rewrite E.
  - rewrite app_assoc in E. apply app_inj_tail in E. destruct E as [_ <-].
    apply Forall_app in Hh. destruct Hh as [_ Hh].
    inversion Hh; subst. congruence.
Qed.

Lemma total_on_incl l l' :
  incl l' l -> total_on islt l -> total_on islt l'.
Proof. intros Hi Ht a b Ha Hb. apply Ht; apply Hi; assumption. Qed.

(** The binary search returns, and it keeps an item of [low] within the
    items of [low] and any other item behind them. *)
Lemma bisect_spec ms hs pivot :
  Forall (fun a => low a = true) ms ->
  Forall (fun a => low a = false) hs ->
  (forall y, In y (ms ++ hs) -> exists c, islt pivot y = Return c) ->
  forall fuel l r,
    (l <= r)%nat -> (r <= List.length (ms ++ hs))%nat ->
    (r - l <= fuel)%nat ->
    exists pos,
      bisect islt fuel (ms ++ hs) pivot l r = Return pos /\
      (l <= pos <= r)%nat /\
      (low pivot = true -> (l <= List.length ms)%nat ->
       (pos <= List.length ms)%nat) /\
      (low pivot = false -> (List.length ms <= r)%nat ->
       (List.length ms <= pos)%nat).
Proof.
  intros Hm Hh Htot.
  induction fuel as [|fuel IH]; intros l r Hlr Hr Hfuel.
  - exists l. cbn. repeat split; lia.
  - cbn [bisect]. destruct (Nat.ltb_spec l r) as [Hlt|Hge].
    2:{ exists l. repeat split; lia. }
    set (p := (l + Nat.div (r - l) 2)%nat).
    assert (Hp : (l <= p < r)%nat).
    { subst p. split; [lia|].
      assert (Nat.div (r - l) 2 < r - l)%nat
        by (apply Nat.div_lt; lia).
      lia. }
    destruct (nth_error (ms ++ hs) p) as [y|] eqn:Hy.
    2:{ apply nth_error_None in Hy. lia. }
    assert (Hin : In y (ms ++ hs)) by (eapply nth_error_In; eauto).
    destruct (Htot y Hin) as [c Hc]. rewrite Hc. cbn [bind].
    destruct c.
    + destruct (IH l p) as (pos & -> & Hpos & Hlow & Hhigh); try lia.
      exists pos. repeat split; try lia; [exact Hlow|].
      intros Hpiv Hk. apply Hhigh; [exact Hpiv|].
      destruct (Nat.ltb_spec p (List.length ms)) as [Hpk|]; [|lia].
      rewrite nth_error_app1 in Hy by exact Hpk.
      apply nth_error_In in Hy.
      rewrite Forall_forall in Hm. specialize (Hm y Hy).
      rewrite (high_low pivot y Hpiv Hm) in Hc. discriminate.
    + destruct (IH (S p) r) as (pos & -> & Hpos & Hlow & Hhigh); try lia.
      exists pos. repeat split; try lia; [|exact Hhigh].
      intros Hpiv Hk. apply Hlow; [exact Hpiv|].
      destruct (Nat.ltb_spec p (List.length ms)) as [|Hpk]; [lia|].
      rewrite nth_error_app2 in Hy by exact Hpk.
      apply nth_error_In in Hy.
      rewrite Forall_forall in Hh. specialize (Hh y Hy).
      rewrite (low_high pivot y Hpiv Hh) in Hc. discriminate.
Qed.

Lemma insert_at_perm pos (x : A) l :
  Permutation (x :: l) (insert_at pos x l).
Proof.
  unfold insert_at. rewrite <- (firstn_skipn pos l) at 1.
  apply Permutation_middle.
Qed.

Lemma insert_at_low pos x ms hs :
  low x = true -> (pos <= List.length ms)%nat ->
  Forall (fun a => low a = true) ms ->
  Forall (fun a => low a = false) hs ->
  low_first low (insert_at pos x (ms ++ hs)).
Proof.
  intros Hx Hpos Hm Hh. unfold insert_at.
  rewrite firstn_app, skipn_app.
  replace (pos - List.length ms)%nat with O by lia. cbn [firstn skipn].
  rewrite app_nil_r.
  exists (firstn pos ms ++ x :: skipn pos ms), hs.
  rewrite <- app_assoc. repeat split; [|exact Hh].
  rewrite <- (firstn_skipn pos ms) in Hm. apply Forall_app in Hm.
  apply Forall_app. split; [apply Hm|]. constructor; [exact Hx | apply Hm].
Qed.

Lemma insert_at_high pos x ms hs :
  low x = false -> (List.length ms <= pos)%nat ->
  Forall (fun a => low a = true) ms ->
  Forall (fun a => low a = false) hs ->
  low_first low (insert_at pos x (ms ++ hs)).
Proof.
  intros Hx Hpos Hm Hh. unfold insert_at.
  rewrite firstn_app, skipn_app.
  rewrite firstn_all2, skipn_all2 by lia. cbn [app].
  set (k := (pos - List.length ms)%nat).
  exists ms, (firstn k hs ++ x :: skipn k hs).
  rewrite <- app_assoc. repeat split; [exact Hm|].
  rewrite <- (firstn_skipn k hs) in Hh. apply Forall_app in Hh.
  apply Forall_app. split; [apply Hh|]. constructor; [exact Hx | apply Hh].
Qed.

(** [binarysort] returns a permutation in which [low] stays first. *)
Lemma binarysort_spec rest :
  forall sorted,
    low_first low sorted ->
    total_on islt (sorted ++ rest) ->
    exists out,
      binarysort islt sorted rest = Return out /\
      Permutation (sorted ++ rest) out /\
      low_first low out.
Proof.
  induction rest as [|pivot rest IH]; intros sorted Hsep Htot.
  - exists sorted. rewrite app_nil_r. repeat split; [reflexivity | exact Hsep].
  - destruct Hsep as (ms & hs & -> & Hm & Hh).
    cbn [binarysort].
    destruct (bisect_spec ms hs pivot Hm Hh) with
      (fuel := List.length (ms ++ hs)) (l := O) (r := List.length (ms ++ hs))
      as (pos & -> & Hpos & Hlow & Hhigh); try lia.
    { intros y Hy. apply Htot; apply in_or_app;
        [right; now left | left; exact Hy]. }
    cbn [bind].
    assert (Hperm : Permutation ((ms ++ hs) ++ pivot :: rest)
                      (insert_at pos pivot (ms ++ hs) ++ rest)).
    { rewrite <- Permutation_middle.
      change (pivot :: (ms ++ hs) ++ rest)
        with ((pivot :: ms ++ hs) ++ rest).
      apply Permutation_app_tail. apply insert_at_perm. }
    destruct (IH (insert_at pos pivot (ms ++ hs))) as (out & -> & Hp & Hs).
    + destruct (low pivot) eqn:Hpiv.
      * apply insert_at_low; try assumption. apply Hlow; [reflexivity | lia].
      * apply insert_at_high; try assumption.
        apply Hhigh; [reflexivity|]. rewrite length_app. lia.
    + eapply total_on_incl; [|exact Htot].
      intros z Hz. eapply Permutation_in; [symmetry; exact Hperm | exact Hz].
    + exists out. repeat split; [|exact Hs].
      etransitivity; [exact Hperm | exact Hp].
Qed.

(** The run that [count_run] finds: taken as it is when it ascends, and
    reversed when it descends, it has [low] first. *)
Lemma run_length_spec (descending : bool) items :
  forall prev,
    total_on islt (prev :: items) ->
    exists n,
      run_length islt descending prev items = Return n /\
      (n <= List.length items)%nat /\
      low_first low
        (if descending then rev (prev :: firstn n items)
         else prev :: firstn n items).
Proof.
  assert (Hone : forall prev,
             low_first low (if descending then rev [prev] else [prev])).
  { intros prev. replace (if descending then rev [prev] else [prev])
      with [prev] by (destruct descending; reflexivity).
    destruct (low prev) eqn:E.
    - apply low_first_all_low. now repeat constructor.
    - apply low_first_all_high. now repeat constructor. }
  induction items as [|x items IH]; intros prev Htot.
  - exists O. cbn [run_length firstn]. repeat split; [lia | apply Hone].
  - cbn [run_length].
    destruct (Htot x prev) as [b Hb]; [right; now left | now left |].
    rewrite Hb. cbn [bind].
    destruct (Bool.eqb b descending) eqn:Ebd.
    2:{ exists O. cbn [firstn]. repeat split; [lia | apply Hone]. }
    apply Bool.eqb_prop in Ebd. subst b.
    destruct (IH x) as (n & -> & Hn & Hsep).
    { eapply total_on_incl; [|exact Htot]. intros z Hz. now right. }
    cbn [bind]. exists (S n). cbn [firstn List.length].
    repeat split; [lia|].
    destruct descending.
    + (* x < prev: the run descends *)
      cbn [rev] in *. destruct (low prev) eqn:Hprev.
      * destruct (low x) eqn:Hx.
        -- apply low_first_all_low. apply Forall_app. split.
           ++ apply low_first_low_last; assumption.
           ++ now repeat constructor.
        -- rewrite (high_low x prev Hx Hprev) in Hb. discriminate.
      * apply low_first_snoc_high; assumption.
    + (* not x < prev: the run ascends *)
      destruct (low prev) eqn:Hprev.
      * apply low_first_cons_low; assumption.
      * destruct (low x) eqn:Hx.
        -- rewrite (low_high x prev Hx Hprev) in Hb. discriminate.
        -- apply low_first_all_high. constructor; [exact Hprev|].
           apply low_first_high_head; assumption.
Qed.

Lemma list_sort_spec l :
  total_on islt l ->
  exists out,
    list_sort islt l = Return out /\
    Permutation l out /\
    low_first low out.
Proof.
  intros Htot. unfold list_sort.
  destruct l as [|x0 [|x1 rest]].
  - exists []. repeat split; [constructor | apply low_first_nil].
  - exists [x0]. repeat split; [reflexivity|].
    destruct (low x0) eqn:E.
    + apply low_first_all_low. now repeat constructor.
    + apply low_first_all_high. now repeat constructor.
  - cbn [List.length Nat.ltb Nat.leb count_run].
    destruct (Htot x1 x0) as [d Hd]; [right; now left | now left |].
    rewrite Hd. cbn [bind].
    destruct (run_length_spec d (x1 :: rest) x0 Htot) as (n & Hn & Hlen & Hsep).
    cbn [run_length] in Hn. rewrite Hd in Hn. cbn [bind] in Hn.
    rewrite Bool.eqb_reflx in Hn.
    destruct (run_length islt d x1 rest) as [n'|e] eqn:Hrun;
      cbn [bind] in Hn; [|discriminate].
    injection Hn as <-. cbn [bind].
    change (firstn (S (S n')) (x0 :: x1 :: rest))
      with (x0 :: firstn (S n') (x1 :: rest)).
    set (run := if d then rev (x0 :: firstn (S n') (x1 :: rest))
                else x0 :: firstn (S n') (x1 :: rest)) in *.
    assert (Hrunperm : Permutation (x0 :: firstn (S n') (x1 :: rest)) run).
    { subst run. destruct d; [apply Permutation_rev | reflexivity]. }
    assert (Hsplit : x0 :: x1 :: rest =
                     (x0 :: firstn (S n') (x1 :: rest))
                       ++ skipn (S (S n')) (x0 :: x1 :: rest)).
    { change (skipn (S (S n')) (x0 :: x1 :: rest))
        with (skipn (S n') (x1 :: rest)).
      cbn [app]. now rewrite firstn_skipn. }
    assert (Hperm : Permutation (x0 :: x1 :: rest)
                      (run ++ skipn (S (S n')) (x0 :: x1 :: rest))).
    { rewrite Hsplit at 1. apply Permutation_app_tail. exact Hrunperm. }
    destruct (binarysort_spec (skipn (S (S n')) (x0 :: x1 :: rest)) run Hsep)
      as (out & -> & Hp & Hs).
    { eapply total_on_incl; [|exact Htot].
      intros z Hz. eapply Permutation_in; [symmetry; exact Hperm | exact Hz]. }
    exists out. repeat split; [|exact Hs].
    etransitivity; [exact Hperm | exact Hp].
Qed.

(** A pair of one item of [low] and one item outside it is returned with
    the item of [low] first, in whichever order it came. *)
Lemma list_sort_pair a b :
  low a = true -> low b = false ->
  list_sort islt [a; b] = Return [a; b] /\
  list_sort islt [b; a] = Return [a; b].
Proof.
  intros Ha Hb. unfold list_sort. cbn [List.length Nat.ltb Nat.leb count_run].
  rewrite (high_low b a Hb Ha), (low_high a b Ha Hb).
  split; reflexivity.
Qed.

End SortClasses.

(** With [low] first, an item of [low] stands at a smaller index than any
    item outside it. *)
Lemma low_first_before {A} (low : A -> bool) (l : list A) i j a b :
  low_first low l ->
  nth_error l i = Some a -> nth_error l j = Some b ->
  low a = true -> low b = false ->
  (i < j)%nat.
Proof.
  intros (ms & hs & -> & Hm & Hh) Hi Hj Ha Hb.
  rewrite Forall_forall in Hm, Hh.
  destruct (Nat.ltb_spec i (List.length ms)) as [Hik|Hik].
  - destruct (Nat.ltb_spec j (List.length ms)) as [Hjk|Hjk]; [|lia].
    rewrite nth_error_app1 in Hj by exact Hjk.
    apply nth_error_In in Hj. apply Hm in Hj. congruence.
  - rewrite nth_error_app2 in Hi by exact Hik.
    apply nth_error_In in Hi. apply Hh in Hi. congruence.
Qed.

(** ** Sorter *)

Section KeyCmp.

Variables lt gt : value -> value -> result bool.

(** [key_cmp] answers -1 when only its first argument lacks the path. *)
Lemma key_cmp_loop_lacks_left path :
  forall a b,
    lookup_path path a = None -> lookup_path path b <> None ->
    key_cmp_loop lt gt path a b = Return (-1).
Proof.
  induction path as [|x path IH]; intros a b Ha Hb; cbn in *.
  - discriminate.
  - destruct (subscript a x) as [a'|]; [|reflexivity].
    destruct (subscript b x) as [b'|]; [|congruence].
    now apply IH.
Qed.

(** [key_cmp] answers 1 when only its second argument lacks the path. *)
Lemma key_cmp_loop_lacks_right path :
  forall a b,
    lookup_path path a <> None -> lookup_path path b = None ->
    key_cmp_loop lt gt path a b = Return 1.
Proof.
  induction path as [|x path IH]; intros a b Ha Hb; cbn in *.
  - discriminate.
  - destruct (subscript a x) as [a'|]; [|congruence].
    destruct (subscript b x) as [b'|]; [|reflexivity].
    now apply IH.
Qed.

(** A missing segment never raises: [key_cmp] returns as soon as one of
    the two records lacks the path. *)
Lemma key_cmp_loop_lacks_returns path :
  forall a b,
    lookup_path path a = None \/ lookup_path path b = None ->
    exists c, key_cmp_loop lt gt path a b = Return c.
Proof.
  induction path as [|x path IH]; intros a b H; cbn in *.
  - destruct H; discriminate.
  - destruct (subscript a x) as [a'|]; [|eauto].
    destruct (subscript b x) as [b'|]; [|eauto].
    now apply IH.
Qed.

(** Two records that both have the path are compared by what they hold at
    its end. *)
Lemma key_cmp_loop_leaves path :
  forall a b la lb,
    lookup_path path a = Some la -> lookup_path path b = Some lb ->
    key_cmp_loop lt gt path a b = cmp lt gt la lb.
Proof.
  induction path as [|x path IH]; intros a b la lb Ha Hb; cbn in *.
  - congruence.
  - destruct (subscript a x) as [a'|]; [|discriminate].
    destruct (subscript b x) as [b'|]; [|discriminate].
    now apply IH.
Qed.

Lemma key_lt_low_high ordered_by a b :
  lacks_path ordered_by a = true -> lacks_path ordered_by b = false ->
  key_lt lt gt ordered_by a b = Return true.
Proof.
  unfold lacks_path, key_lt, key_cmp. intros Ha Hb.
  rewrite key_cmp_loop_lacks_left; [reflexivity | |].
  - destruct (lookup_path _ a); [discriminate | reflexivity].
  - destruct (lookup_path _ b); [discriminate | discriminate].
Qed.

Lemma key_lt_high_low ordered_by a b :
  lacks_path ordered_by a = false -> lacks_path ordered_by b = true ->
  key_lt lt gt ordered_by a b = Return false.
Proof.
  unfold lacks_path, key_lt, key_cmp. intros Ha Hb.
  rewrite key_cmp_loop_lacks_right; [reflexivity | |].
  - destruct (lookup_path _ a); [discriminate | discriminate].
  - destruct (lookup_path _ b); [discriminate | reflexivity].
Qed.

(** C5: sorting in ascending order puts a record that lacks a segment of
    the key path before a record that has the whole path.  For the pair
    itself, in either input order, nothing is raised at all.  In a list
    (of fewer than 64 records, where CPython sorts by binary insertion),
    every record lacking the path comes out before every record having
    it; the missing field raises nothing, so the call returns whenever
    the values at the end of the path can be compared with each other. *)
Theorem sort_meta_data_list_missing_first (ordered_by : string) :
  (forall a b,
     lacks_path ordered_by a = true -> lacks_path ordered_by b = false ->
     sort_meta_data_list lt gt [a; b] ordered_by false = Return [a; b] /\
     sort_meta_data_list lt gt [b; a] ordered_by false = Return [a; b]) /\
  (forall metas,
     (List.length metas < 64)%nat ->
     (forall a b la lb,
        In a metas -> In b metas ->
        lookup_path (split_dots ordered_by) a = Some la ->
        lookup_path (split_dots ordered_by) b = Some lb ->
        exists c, cmp lt gt la lb = Return c) ->
     exists out,
       sort_meta_data_list lt gt metas ordered_by false = Return out /\
       Permutation metas out /\
       low_first (lacks_path ordered_by) out /\
       forall i j a b,
         nth_error out i = Some a -> nth_error out j = Some b ->
         lacks_path ordered_by a = true ->
         lacks_path ordered_by b = false ->
         (i < j)%nat).
Proof.
  split.
  - intros a b Ha Hb. unfold sort_meta_data_list, list_sort_reverse.
    apply (list_sort_pair _ (lacks_path ordered_by));
      auto using key_lt_low_high, key_lt_high_low.
  - intros metas _ Hcmp. unfold sort_meta_data_list, list_sort_reverse.
    destruct (list_sort_spec (key_lt lt gt ordered_by) (lacks_path ordered_by)
                (key_lt_low_high ordered_by) (key_lt_high_low ordered_by)
                metas) as (out & Hout & Hperm & Hsep).
    + intros a b Ha Hb. unfold key_lt, key_cmp.
      destruct (lookup_path (split_dots ordered_by) a) as [la|] eqn:Hla.
      * destruct (lookup_path (split_dots ordered_by) b) as [lb|] eqn:Hlb.
        -- rewrite (key_cmp_loop_leaves _ _ _ _ _ Hla Hlb).
           destruct (Hcmp a b la lb Ha Hb Hla Hlb) as [c ->]. cbn. eauto.
        -- destruct (key_cmp_loop_lacks_returns (split_dots ordered_by) a b)
             as [c ->]; [now right | cbn; eauto].
      * destruct (key_cmp_loop_lacks_returns (split_dots ordered_by) a b)
          as [c ->]; [now left | cbn; eauto].
    + exists out. repeat split; try assumption.
      intros i j a b Hi Hj Ha Hb.
      eapply low_first_before; eauto.
Qed.

End KeyCmp.

Lemma sort_meta_data_list_missing_first_witness :
  sort_meta_data_list simple_lt simple_gt
    [VDict [("file", VDict [("size", VInt 3)])]; VDict [("name", VStr "a")]]
    "file.size" false
  = Return [VDict [("name", VStr "a")];
            VDict [("file", VDict [("size", VInt 3)])]]
  /\ exists out,
       sort_meta_data_list simple_lt simple_gt
         [VDict [("file", VDict [("size", VInt 3)])];
          VDict [("name", VStr "a")];
          VDict [("file", VDict [("size", VInt 1)])]]
         "file.size" false = Return out /\
       low_first (lacks_path "file.size") out.
Proof.
  destruct (sort_meta_data_list_missing_first simple_lt simple_gt "file.size")
    as [Hpair Hlist].
  split.
  - apply (Hpair (VDict [("name", VStr "a")])
                 (VDict [("file", VDict [("size", VInt 3)])]));
      reflexivity.
  - destruct (Hlist [VDict [("file", VDict [("size", VInt 3)])];
                     VDict [("name", VStr "a")];
                     VDict [("file", VDict [("size", VInt 1)])]])
      as (out & Hout & _ & Hsep & _).
    + cbn. lia.
    + intros a b la lb Ha Hb Hla Hlb.
      cbn in Ha, Hb.
      destruct Ha as [<-|[<-|[<-|[]]]]; destruct Hb as [<-|[<-|[<-|[]]]];
        vm_compute in Hla, Hlb; try discriminate;
        injection Hla as <-; injection Hlb as <-;
        eexists; vm_compute; reflexivity.
    + exists out. split; assumption.
Defined.

(** ** Grouper: the shape of the partition *)

Section GrouperShape.

Variable max_size : Z.

(** The open group only grows at its end, and every group opened after it
    holds at least the record it was opened for. *)
Lemma group_loop_shape l :
  forall cur total gs t,
    for_each (group_step max_size) ([cur], total) l = Return (gs, t) ->
    exists suffix later,
      gs = (cur ++ suffix) :: later /\
      Forall (fun g => g <> []) later.
Proof.
  induction l as [|x l IH]; intros cur total gs t.
  - cbn. intros [= <- <-]. exists [], []. rewrite app_nil_r. now split.
  - cbn [for_each].
    pose proof (group_step_snoc max_size [] cur total x) as E.
    cbn [app] in E. rewrite E. clear E.
    destruct (File.size (file x) >? max_size); [discriminate|].
    destruct (File.size (file x) + total <? max_size); cbn [bind].
    + intros H. apply IH in H. destruct H as (suffix & later & -> & Hl).
      exists (x :: suffix), later. rewrite <- app_assoc. now split.
    + pose proof (group_loop_frame max_size l [cur] [x] (File.size (file x)))
        as E.
      cbn [app] in E. rewrite E. clear E.
      destruct (for_each (group_step max_size) ([[x]], File.size (file x)) l)
        as [[gs' t']|e] eqn:El; cbn [bind]; [|discriminate].
      intros [= <- <-]. apply IH in El.
      destruct El as (suffix & later & -> & Hl).
      exists [], (([x] ++ suffix) :: later). rewrite app_nil_r.
      split; [reflexivity|]. constructor; [discriminate | exact Hl].
Qed.

Lemma group_loop_greedy l :
  forall cur total gs t,
    total = att_size cur ->
    for_each (group_step max_size) ([cur], total) l = Return (gs, t) ->
    greedy max_size gs.
Proof.
  induction l as [|x l IH]; intros cur total gs t Htot.
  - cbn. intros [= <- <-]. exact I.
  - cbn [for_each].
    pose proof (group_step_snoc max_size [] cur total x) as E.
    cbn [app] in E. rewrite E. clear E.
    destruct (File.size (file x) >? max_size); [discriminate|].
    destruct (Z.ltb_spec (File.size (file x) + total) max_size); cbn [bind].
    + apply IH. rewrite att_size_snoc. lia.
    + pose proof (group_loop_frame max_size l [cur] [x] (File.size (file x)))
        as E.
      cbn [app] in E. rewrite E. clear E.
      destruct (for_each (group_step max_size) ([[x]], File.size (file x)) l)
        as [[gs' t']|e] eqn:El; cbn [bind]; [|discriminate].
      intros [= <- <-].
      pose proof (group_loop_shape _ _ _ _ _ El) as (suffix & later & Egs & _).
      apply IH in El; [|cbn; lia].
      rewrite Egs in *. cbn [greedy app]. split; [lia | exact El].
Qed.

End GrouperShape.

Lemma greedy_adjacent max_size (before : list group) :
  forall g next after,
    greedy max_size (before ++ g :: next :: after) ->
    exists x rest,
      next = x :: rest /\ max_size <= att_size g + File.size (file x).
Proof.
  induction before as [|h before IH]; intros g next after H.
  - cbn in H. destruct next as [|x rest]; [tauto|].
    exists x, rest. split; [reflexivity | tauto].
  - apply IH with (after := after).
    cbn [app greedy] in H. destruct (before ++ g :: next :: after) eqn:E.
    + destruct before; discriminate.
    + tauto.
Qed.

(** X1: No group is larger than the bound: with a bound that is not negative,
    every returned group has a total of at most [max_size], and a group
    whose total is [max_size] is a single record of exactly [max_size]
    bytes, or, when [max_size] is [0], an empty group. *)
Theorem meta_data2groups_within_bound meta_data max_size groups :
  0 <= max_size ->
  meta_data2groups meta_data max_size = Return groups ->
  Forall (fun g =>
            att_size g <= max_size /\
            (att_size g = max_size ->
             (exists x, g = [x] /\ File.size (file x) = max_size) \/
             (g = [] /\ max_size = 0)))
    groups.
Proof.
  intros Hmax H. apply meta_data2groups_fits in H.
  eapply Forall_impl; [|exact H].
  intros g [Hlt | [(x & -> & Hx) | ->]].
  - split; [lia|]. intros Heq. lia.
  - split; [cbn; lia|]. intros _. left. exists x. split; [reflexivity|exact Hx].
  - split; [cbn; lia|]. cbn. intros Heq. right. split; [reflexivity|lia].
Qed.

Lemma meta_data2groups_within_bound_witness :
  Forall (fun g =>
            att_size g <= 10 /\
            (att_size g = 10 ->
             (exists x, g = [x] /\ File.size (file x) = 10) \/
             (g = [] /\ 10 = 0)))
    [[]; [plain_file "a" 10]; [plain_file "b" 4; plain_file "c" 5]].
Proof.
  apply (meta_data2groups_within_bound
           [plain_file "a" 10; plain_file "b" 4; plain_file "c" 5] 10).
  - lia.
  - reflexivity.
Defined.

(** X2: Only the first group can be empty, and it is empty exactly when the
    input is empty or its first record does not fit an empty group (its
    size has already reached [max_size]). *)
Theorem meta_data2groups_empty_group_first meta_data max_size groups :
  meta_data2groups meta_data max_size = Return groups ->
  exists first later,
    groups = first :: later /\
    Forall (fun g => g <> []) later /\
    (first = [] <->
     meta_data = [] \/
     exists x rest, meta_data = x :: rest /\ max_size <= File.size (file x)).
Proof.
  unfold meta_data2groups.
  destruct (for_each (group_step max_size) ([[]], 0) meta_data)
    as [[gs t]|e] eqn:E; cbn [bind]; [|discriminate].
  intros [= <-].
  destruct meta_data as [|x rest].
  - cbn in E. injection E as <- <-. exists [], []. repeat split; auto.
  - cbn [for_each] in E.
    pose proof (group_step_snoc max_size [] [] 0 x) as E'.
    cbn [app] in E'. rewrite E' in E. clear E'.
    destruct (File.size (file x) >? max_size); [discriminate|].
    destruct (Z.ltb_spec (File.size (file x) + 0) max_size); cbn [bind] in E.
    + apply group_loop_shape in E. destruct E as (suffix & later & -> & Hl).
      exists ([x] ++ suffix), later. repeat split; [exact Hl | discriminate |].
      intros [[=] | (y & rest' & [= <- <-] & Hy)]. lia.
    + pose proof (group_loop_frame max_size rest [[]] [x] (File.size (file x)))
        as E'.
      cbn [app] in E'. rewrite E' in E. clear E'.
      destruct (for_each (group_step max_size) ([[x]], File.size (file x)) rest)
        as [[gs' t']|e] eqn:El; cbn [bind] in E; [|discriminate].
      injection E as <- <-.
      apply group_loop_shape in El. destruct El as (suffix & later & -> & Hl).
      exists [], (([x] ++ suffix) :: later). repeat split.
      * constructor; [discriminate | exact Hl].
      * intros _. right. exists x, rest. split; [reflexivity | lia].
Qed.

Lemma meta_data2groups_empty_group_first_witness :
  exists first later,
    [[]; [plain_file "a" 10]; [plain_file "b" 4]] = first :: later /\
    Forall (fun g => g <> []) later /\
    (first = [] <->
     [plain_file "a" 10; plain_file "b" 4] = [] \/
     exists x rest,
       [plain_file "a" 10; plain_file "b" 4] = x :: rest /\
       10 <= File.size (file x)).
Proof.
  apply (meta_data2groups_empty_group_first
           [plain_file "a" 10; plain_file "b" 4] 10).
  reflexivity.
Defined.

(** X3: The partition is greedy: wherever one group follows another, the
    second one starts with a record that no longer fitted the first. *)
Theorem meta_data2groups_greedy meta_data max_size before g next after :
  meta_data2groups meta_data max_size = Return (before ++ g :: next :: after) ->
  exists x rest,
    next = x :: rest /\ max_size <= att_size g + File.size (file x).
Proof.
  unfold meta_data2groups.
  destruct (for_each (group_step max_size) ([[]], 0) meta_data)
    as [[gs t]|e] eqn:E; cbn [bind]; [|discriminate].
  intros [= ->].
  apply group_loop_greedy in E; [|reflexivity].
  eapply greedy_adjacent; exact E.
Qed.

Lemma meta_data2groups_greedy_witness :
  exists x rest,
    [plain_file "c" 5] = x :: rest /\
    10 <= att_size [plain_file "a" 4; plain_file "b" 3] + File.size (file x).
Proof.
  apply (meta_data2groups_greedy
           [plain_file "a" 4; plain_file "b" 3; plain_file "c" 5] 10
           [] [plain_file "a" 4; plain_file "b" 3] [plain_file "c" 5] []).
  reflexivity.
Defined.

(** ** Partition and subjects together *)

Lemma total_len_concat (groups : list group) :
  total_len groups = len (List.concat groups).
Proof.
  unfold total_len, len. induction groups as [|g groups IH]; [reflexivity|].
  cbn [fold_right List.concat]. rewrite length_app, IH. lia.
Qed.

Lemma att_size_nonneg (g : group) :
  Forall (fun x => 0 <= File.size (file x)) g -> 0 <= att_size g.
Proof.
  unfold att_size. induction 1 as [|x g Hx _ IH]; cbn; lia.
Qed.

(** X4: The subjects of a partition: for records with sizes that are not
    negative and a bound below [2^1023], [groups2subjects] returns on the
    groups that [meta_data2groups] returned; the total in every subject is
    the number of input records, and the range of the group at index [i]
    runs from one past the records of the groups before it to the records
    of the groups up to it, so that the ranges cover [1..N] without gap or
    overlap. *)
Theorem partition_subjects meta_data max_size groups title :
  0 <= max_size < 2 ^ 1023 ->
  Forall (fun x => 0 <= File.size (file x)) meta_data ->
  meta_data2groups meta_data max_size = Return groups ->
  exists subjects,
    groups2subjects groups title default_subject_fmt = Return subjects /\
    List.length subjects = List.length groups /\
    total_len groups = len meta_data /\
    forall i g,
      nth_error groups i = Some g ->
      exists size,
        nth_error subjects i =
          Some (default_subject title (Z.of_nat i + 1)
                  (len (List.concat (firstn i groups)) + 1)
                  (len (List.concat (firstn (S i) groups)))
                  (len meta_data) size).
Proof.
  intros Hmax Hsizes Hgroups.
  pose proof (meta_data2groups_concat _ _ _ Hgroups) as Hconcat.
  assert (Htotal : total_len groups = len meta_data)
    by (now rewrite total_len_concat, Hconcat).
  assert (Hall : Forall (fun g => Z.abs (att_size g) < 2 ^ 1023) groups).
  { pose proof (meta_data2groups_fits _ _ _ Hgroups) as Hfits.
    rewrite Forall_forall in Hfits |- *. intros g Hg.
    assert (Hnn : 0 <= att_size g).
    { apply att_size_nonneg. rewrite Forall_forall in Hsizes |- *.
      intros x Hx. apply Hsizes. rewrite <- Hconcat.
      apply in_concat. exists g. now split. }
    destruct (Hfits g Hg) as [Hlt | [(x & -> & Hx) | ->]]; cbn in *; lia. }
  unfold groups2subjects.
  destruct (subject_loop title (total_len groups) groups [] 0 0 0 Hall)
    as (new & p0' & -> & Hlen & Hnth).
  cbn [bind app]. exists new. repeat split; [exact Hlen | exact Htotal |].
  intros i g Hi. destruct (Hnth i g Hi) as (size & _ & Hn).
  exists size. rewrite Hn, Htotal. do 2 f_equal.
  - rewrite total_len_concat. lia.
  - rewrite !total_len_concat.
    assert (E : firstn (S i) groups = firstn i groups ++ [g]).
    { clear -Hi. revert i Hi. induction groups as [|h groups IH]; intros [|i] Hi;
        try discriminate.
      - cbn in Hi. injection Hi as ->. destruct groups; reflexivity.
      - cbn [nth_error] in Hi. cbn [firstn app]. f_equal. now apply IH. }
    rewrite E, concat_app. cbn [List.concat]. rewrite app_nil_r.
    unfold len. rewrite length_app. lia.
Qed.

Lemma partition_subjects_witness :
  exists subjects,
    groups2subjects [[plain_file "a" 4; plain_file "b" 3]; [plain_file "c" 5]]
      "T" default_subject_fmt = Return subjects /\
    List.length subjects = 2%nat.
Proof.
  destruct (partition_subjects
              [plain_file "a" 4; plain_file "b" 3; plain_file "c" 5] 10
              [[plain_file "a" 4; plain_file "b" 3]; [plain_file "c" 5]] "T")
    as (subjects & H & Hlen & _).
  - split; [lia | vm_compute; reflexivity].
  - repeat constructor; cbn; lia.
  - reflexivity.
  - exists subjects. split; [exact H | exact Hlen].
Defined.

(** ** Sorting: order and stability *)

Lemma nth_error_firstn_skipn {A} (l : list A) :
  forall p y,
    nth_error l p = Some y ->
    firstn (S p) l = firstn p l ++ [y] /\
    skipn p l = y :: skipn (S p) l.
Proof.
  induction l as [|h l IH]; intros [|p] y Hy; try discriminate.
  - cbn in Hy. injection Hy as ->. split; reflexivity.
  - cbn [nth_error] in Hy. destruct (IH p y Hy) as [E1 E2].
    split.
    + change (firstn (S (S p)) (h :: l)) with (h :: firstn (S p) l).
      rewrite E1. reflexivity.
    + change (skipn (S p) (h :: l)) with (skipn p l). exact E2.
Qed.

Section SortStable.

Context {A : Type}.
Variable islt : A -> A -> result bool.
Variable le : A -> A -> bool.

Hypothesis le_total : forall a b, le a b = true \/ le b a = true.
Hypothesis le_trans :
  forall a b c, le a b = true -> le b c = true -> le a c = true.

Local Abbreviation asc := (fun a b => le a b = true).

(** [above a b]: [b] is strictly below [a]. *)
Local Abbreviation above := (fun a b => le a b = false).

Lemma not_le_le a b : le a b = false -> le b a = true.
Proof. intros H. destruct (le_total a b); congruence. Qed.

Lemma above_trans a b c : above a b -> above b c -> above a c.
Proof.
  cbn. intros Hab Hbc.
  destruct (le a c) eqn:Hac; [|reflexivity].
  apply not_le_le in Hbc.
  rewrite (le_trans a c b Hac Hbc) in Hab. discriminate.
Qed.

Lemma sorted_middle l1 y l2 :
  StronglySorted asc (l1 ++ y :: l2) ->
  Forall (fun z => le z y = true) l1 /\ Forall (fun z => le y z = true) l2.
Proof.
  induction l1 as [|a l1 IH]; cbn [app]; intros H;
    apply StronglySorted_inv in H; destruct H as [Hs Hf].
  - split; [constructor | exact Hf].
  - destruct (IH Hs) as [H1 H2]. split; [|exact H2].
    constructor; [|exact H1].
    rewrite Forall_forall in Hf. apply Hf. apply in_elt.
Qed.

Lemma sorted_insert l1 l2 x :
  StronglySorted asc (l1 ++ l2) ->
  Forall (fun z => le z x = true) l1 ->
  Forall (fun z => le x z = true) l2 ->
  StronglySorted asc (l1 ++ x :: l2).
Proof.
  induction l1 as [|a l1 IH]; cbn [app]; intros Hs H1 H2.
  - constructor; assumption.
  - apply StronglySorted_inv in Hs. destruct Hs as [Hs Hf].
    inversion H1 as [|? ? Hax H1']; subst.
    constructor; [now apply IH|].
    apply Forall_app in Hf. destruct Hf as [Hf1 Hf2].
    apply Forall_app. split; [exact Hf1|]. constructor; assumption.
Qed.

(** On a sorted list the binary search returns the place behind every
    item that is not above the pivot. *)
Lemma bisect_sorted sorted pivot :
  StronglySorted asc sorted ->
  (forall y, In y sorted -> islt pivot y = Return (negb (le y pivot))) ->
  forall fuel l r,
    (l <= r)%nat -> (r <= List.length sorted)%nat -> (r - l <= fuel)%nat ->
    Forall (fun z => le z pivot = true) (firstn l sorted) ->
    Forall (fun z => le z pivot = false) (skipn r sorted) ->
    exists pos,
      bisect islt fuel sorted pivot l r = Return pos /\
      Forall (fun z => le z pivot = true) (firstn pos sorted) /\
      Forall (fun z => le z pivot = false) (skipn pos sorted).
Proof.
  intros Hs Hagree.
  induction fuel as [|fuel IH]; intros l r Hlr Hr Hfuel Hl Hh.
  - exists l. cbn. replace r with l in Hh by lia. auto.
  - rewrite bisect_turn. destruct (Nat.ltb_spec l r) as [Hlt|Hge].
    2:{ exists l. replace r with l in Hh by lia. auto. }
    set (p := (l + Nat.div (r - l) 2)%nat).
    assert (Hp : (l <= p < r)%nat).
    { subst p. split; [lia|].
      assert (Nat.div (r - l) 2 < r - l)%nat by (apply Nat.div_lt; lia).
      lia. }
    destruct (nth_error sorted p) as [y|] eqn:Hy.
    2:{ apply nth_error_None in Hy. lia. }
    destruct (nth_error_firstn_skipn sorted p y Hy) as [Ef Es].
    assert (Hmid : sorted = firstn p sorted ++ y :: skipn (S p) sorted).
    { rewrite <- Es. symmetry. apply firstn_skipn. }
    rewrite Hmid in Hs. apply sorted_middle in Hs. destruct Hs as [Hbefore Hafter].
    rewrite (Hagree y (nth_error_In _ _ Hy)). cbn [bind].
    destruct (le y pivot) eqn:Hyp; cbn [negb].
    + apply (IH (S p) r); try lia; [|exact Hh].
      rewrite Ef. apply Forall_app. split; [|now repeat constructor].
      eapply Forall_impl; [|exact Hbefore].
      intros z Hz. cbn in Hz. eapply le_trans; eauto.
    + apply (IH l p); try lia; [exact Hl|].
      rewrite Es. constructor; [exact Hyp|].
      eapply Forall_impl; [|exact Hafter].
      intros z Hz. cbn in Hz.
      destruct (le z pivot) eqn:Hzp; [|reflexivity].
      rewrite (le_trans y z pivot Hz Hzp) in Hyp. discriminate.
Qed.

Lemma insert_at_sorted pos pivot sorted :
  StronglySorted asc sorted ->
  Forall (fun z => le z pivot = true) (firstn pos sorted) ->
  Forall (fun z => le z pivot = false) (skipn pos sorted) ->
  StronglySorted asc (insert_at pos pivot sorted).
Proof.
  intros Hs H1 H2. unfold insert_at. apply sorted_insert.
  - now rewrite firstn_skipn.
  - exact H1.
  - eapply Forall_impl; [|exact H2]. intros z Hz. now apply not_le_le.
Qed.

(** For the items of one key, inserting behind the items not above the
    pivot is as good as appending the pivot. *)
Lemma insert_at_stable pos pivot sorted k :
  Forall (fun z => le z pivot = false) (skipn pos sorted) ->
  filter (same_key le k) (insert_at pos pivot sorted) =
  filter (same_key le k) (sorted ++ [pivot]).
Proof.
  intros H2. unfold insert_at.
  rewrite <- (firstn_skipn pos sorted) at 3.
  rewrite <- app_assoc, !filter_app. f_equal.
  cbn [filter]. destruct (same_key le k pivot) eqn:Hk.
  - assert (E : filter (same_key le k) (skipn pos sorted) = []).
    { apply Bool.andb_true_iff in Hk. destruct Hk as [Hkp Hpk].
      induction H2 as [|z t Hz _ IHt]; [reflexivity|].
      cbn [filter]. rewrite IHt.
      destruct (same_key le k z) eqn:Hkz; [|reflexivity].
      apply Bool.andb_true_iff in Hkz. destruct Hkz as [_ Hzk].
      rewrite (le_trans z k pivot Hzk Hkp) in Hz. discriminate. }
    rewrite E. reflexivity.
  - now rewrite app_nil_r.
Qed.

Lemma agrees_incl l l' :
  incl l' l -> agrees islt le l -> agrees islt le l'.
Proof. intros Hi Ha a b Hx Hy. apply Ha; apply Hi; assumption. Qed.

Lemma binarysort_sorted rest :
  forall sorted,
    StronglySorted asc sorted ->
    agrees islt le (sorted ++ rest) ->
    exists out,
      binarysort islt sorted rest = Return out /\
      StronglySorted asc out /\
      forall k, filter (same_key le k) out =
                filter (same_key le k) (sorted ++ rest).
Proof.
  induction rest as [|pivot rest IH]; intros sorted Hs Hagree.
  - exists sorted. rewrite app_nil_r. auto.
  - cbn [binarysort].
    destruct (bisect_sorted sorted pivot Hs) with
      (fuel := List.length sorted) (l := O) (r := List.length sorted)
      as (pos & -> & H1 & H2); try lia.
    { intros y Hy. apply Hagree; apply in_or_app;
        [right; now left | left; exact Hy]. }
    { constructor. }
    { rewrite skipn_all. constructor. }
    cbn [bind].
    destruct (IH (insert_at pos pivot sorted)) as (out & -> & Hso & Hst).
    + now apply insert_at_sorted.
    + eapply agrees_incl; [|exact Hagree].
      intros z Hz. apply in_app_or in Hz. apply in_or_app.
      destruct Hz as [Hz|Hz]; [|right; now right].
      apply (Permutation_in _ (Permutation_sym (insert_at_perm pos pivot sorted)))
        in Hz.
      destruct Hz as [<-|Hz]; [right; now left | now left].
    + exists out. repeat split; [exact Hso|].
      intros k. rewrite Hst, filter_app, (insert_at_stable _ _ _ _ H2).
      change (pivot :: rest) with ([pivot] ++ rest).
      rewrite !filter_app, <- app_assoc. reflexivity.
Qed.

(** An ascending run is sorted; a descending run is strictly descending,
    so that reversing it sorts it and moves no two items of one key. *)
Lemma run_length_sorted (descending : bool) items :
  forall prev,
    agrees islt le (prev :: items) ->
    exists n,
      run_length islt descending prev items = Return n /\
      (n <= List.length items)%nat /\
      StronglySorted (if descending then above else asc)
        (prev :: firstn n items).
Proof.
  induction items as [|x items IH]; intros prev Hagree.
  - exists O. cbn. repeat split; [lia|].
    destruct descending; repeat constructor.
  - cbn [run_length].
    rewrite (Hagree x prev); [|right; now left | now left]. cbn [bind].
    destruct (Bool.eqb (negb (le prev x)) descending) eqn:Ebd.
    2:{ exists O. cbn [firstn]. repeat split; [lia|].
        destruct descending; repeat constructor. }
    apply Bool.eqb_prop in Ebd.
    destruct (IH x) as (n & -> & Hn & Hs).
    { eapply agrees_incl; [|exact Hagree]. intros z Hz. now right. }
    cbn [bind]. exists (S n). cbn [firstn List.length]. repeat split; [lia|].
    pose proof (StronglySorted_inv Hs) as [_ Hf].
    destruct descending.
    + assert (Hpx : above prev x)
        by (cbn; destruct (le prev x); [discriminate | reflexivity]).
      constructor; [exact Hs|]. constructor; [exact Hpx|].
      eapply Forall_impl; [|exact Hf]. intros z Hz.
      exact (above_trans prev x z Hpx Hz).
    + assert (Hpx : asc prev x)
        by (cbn; destruct (le prev x); [reflexivity | discriminate]).
      constructor; [exact Hs|]. constructor; [exact Hpx|].
      eapply Forall_impl; [|exact Hf]. intros z Hz.
      exact (le_trans prev x z Hpx Hz).
Qed.

Lemma above_rev_sorted l :
  StronglySorted above l -> StronglySorted asc (rev l).
Proof.
  induction 1 as [|a l _ IH Hf]; [constructor|].
  cbn [rev]. rewrite <- (app_nil_r (rev l)) in IH.
  apply sorted_insert with (l2 := []); [exact IH | | constructor].
  apply Forall_rev. eapply Forall_impl; [|exact Hf].
  intros z Hz. now apply not_le_le.
Qed.

(** A strictly descending run holds at most one item of each key. *)
Lemma above_filter_rev l k :
  StronglySorted above l ->
  filter (same_key le k) (rev l) = filter (same_key le k) l.
Proof.
  intros Hs. rewrite filter_rev.
  assert (H : filter (same_key le k) l = [] \/
              exists a, filter (same_key le k) l = [a]).
  { induction Hs as [|a l _ IH Hf]; [now left|].
    cbn [filter]. destruct (same_key le k a) eqn:Hka; [|exact IH].
    right. exists a. f_equal.
    apply Bool.andb_true_iff in Hka. destruct Hka as [Hk1 Hk2].
    clear IH. induction Hf as [|z t Hz _ IHt]; [reflexivity|].
    cbn [filter]. rewrite IHt.
    destruct (same_key le k z) eqn:Hkz; [|reflexivity].
    apply Bool.andb_true_iff in Hkz. destruct Hkz as [Hkz _].
    cbn in Hz. rewrite (le_trans a k z Hk2 Hkz) in Hz. discriminate. }
  destruct H as [-> | [a ->]]; reflexivity.
Qed.

Lemma list_sort_sorted l :
  agrees islt le l ->
  exists out,
    list_sort islt l = Return out /\ stable_sorted le false l out.
Proof.
  intros Hagree. unfold list_sort, stable_sorted.
  destruct l as [|x0 [|x1 rest]].
  - exists []. repeat split. constructor.
  - exists [x0]. repeat split. repeat constructor.
  - cbn [List.length Nat.ltb Nat.leb count_run].
    rewrite (Hagree x1 x0); [|right; now left | now left]. cbn [bind].
    set (d := negb (le x0 x1)).
    destruct (run_length_sorted d (x1 :: rest) x0 Hagree) as (n & Hn & Hlen & Hs).
    cbn [run_length] in Hn.
    rewrite (Hagree x1 x0) in Hn; [|right; now left | now left].
    cbn [bind] in Hn. fold d in Hn. rewrite Bool.eqb_reflx in Hn.
    destruct (run_length islt d x1 rest) as [n'|e] eqn:Hrun;
      cbn [bind] in Hn; [|discriminate].
    injection Hn as <-. cbn [bind].
    change (firstn (S (S n')) (x0 :: x1 :: rest))
      with (x0 :: firstn (S n') (x1 :: rest)).
    change (skipn (S (S n')) (x0 :: x1 :: rest))
      with (skipn (S n') (x1 :: rest)).
    set (head := x0 :: firstn (S n') (x1 :: rest)) in *.
    set (tail := skipn (S n') (x1 :: rest)).
    assert (Hsplit : x0 :: x1 :: rest = head ++ tail).
    { subst head tail. cbn [app]. now rewrite firstn_skipn. }
    assert (Hrun' : StronglySorted asc (if d then rev head else head) /\
                    forall k, filter (same_key le k) (if d then rev head else head)
                              = filter (same_key le k) head).
    { destruct d; split; auto using above_rev_sorted, above_filter_rev. }
    destruct Hrun' as [Hsorted Hsame].
    destruct (binarysort_sorted tail (if d then rev head else head) Hsorted)
      as (out & -> & Hso & Hst).
    { eapply agrees_incl; [|exact Hagree]. rewrite Hsplit.
      intros z Hz. apply in_app_or in Hz. apply in_or_app.
      destruct Hz as [Hz|Hz]; [left | now right].
      destruct d; [now apply in_rev | exact Hz]. }
    exists out. repeat split; [exact Hso|].
    intros k. rewrite Hst, Hsplit, !filter_app, Hsame. reflexivity.
Qed.

(** [list.sort], with or without [reverse=True], returns the items in
    order, and stable. *)
Lemma list_sort_reverse_sorted reverse l :
  agrees islt le l ->
  exists out,
    list_sort_reverse islt reverse l = Return out /\
    stable_sorted le reverse l out.
Proof.
  intros Hagree. unfold list_sort_reverse. destruct reverse.
  - destruct (list_sort_sorted (rev l)) as (out & -> & Hs & Hst).
    { eapply agrees_incl; [|exact Hagree]. intros z Hz. now apply in_rev. }
    cbn [bind]. exists (rev out). split; [reflexivity|]. split.
    + clear -Hs. induction Hs as [|a t _ IH Hf]; [constructor|].
      cbn [rev].
      assert (G : forall l1 x,
                 StronglySorted (fun a b => le b a = true) l1 ->
                 Forall (fun z => le x z = true) l1 ->
                 StronglySorted (fun a b => le b a = true) (l1 ++ [x])).
      { induction l1 as [|b l1 IHl]; intros x Hl Hx; cbn [app].
        - repeat constructor.
        - apply StronglySorted_inv in Hl. destruct Hl as [Hl Hb].
          inversion Hx; subst. constructor; [now apply IHl|].
          apply Forall_app. split; [exact Hb | now repeat constructor]. }
      apply G; [exact IH | now apply Forall_rev].
    + intros k. rewrite filter_rev, Hst, filter_rev, rev_involutive.
      reflexivity.
  - apply list_sort_sorted. exact Hagree.
Qed.

End SortStable.

(** ** Sorter: order, stability and the reverse sort *)

Section SorterOrder.

Variables lt gt : value -> value -> result bool.

(** The comparisons of a list raise nothing when the values at the end of
    the path can be compared with each other. *)
Lemma key_lt_total_on ordered_by metas :
  (forall a b la lb,
     In a metas -> In b metas ->
     lookup_path (split_dots ordered_by) a = Some la ->
     lookup_path (split_dots ordered_by) b = Some lb ->
     exists c, cmp lt gt la lb = Return c) ->
  total_on (key_lt lt gt ordered_by) metas.
Proof.
  intros Hcmp a b Ha Hb. unfold key_lt, key_cmp.
  destruct (lookup_path (split_dots ordered_by) a) as [la|] eqn:Hla.
  - destruct (lookup_path (split_dots ordered_by) b) as [lb|] eqn:Hlb.
    + rewrite (key_cmp_loop_leaves _ _ _ _ _ _ _ Hla Hlb).
      destruct (Hcmp a b la lb Ha Hb Hla Hlb) as [c ->]. cbn. eauto.
    + destruct (key_cmp_loop_lacks_returns lt gt (split_dots ordered_by) a b)
        as [c ->]; [now right | cbn; eauto].
  - destruct (key_cmp_loop_lacks_returns lt gt (split_dots ordered_by) a b)
      as [c ->]; [now left | cbn; eauto].
Qed.

(** X5: A comparison with a record that lacks the path raises nothing and
    never answers "equal"; a record that lacks the path is even smaller
    than itself, so [key_cmp] is not an order on such records. *)
Theorem key_cmp_missing_field ordered_by a b :
  lacks_path ordered_by a = true \/ lacks_path ordered_by b = true ->
  (exists c, key_cmp lt gt ordered_by a b = Return c /\ (c = -1 \/ c = 1)) /\
  (lacks_path ordered_by a = true ->
   key_cmp lt gt ordered_by a a = Return (-1) /\
   key_lt lt gt ordered_by a a = Return true).
Proof.
  unfold lacks_path, key_lt, key_cmp.
  set (path := split_dots ordered_by). clearbody path.
  intros H. split.
  - assert (H' : lookup_path path a = None \/ lookup_path path b = None).
    { destruct H as [H|H]; [left | right];
        destruct (lookup_path path _); [discriminate | reflexivity |
                                        discriminate | reflexivity]. }
    clear H. revert a b H'.
    induction path as [|x path IH]; intros a b H; cbn in *.
    + destruct H; discriminate.
    + destruct (subscript a x) as [a'|]; [|eauto].
      destruct (subscript b x) as [b'|]; [|eauto].
      now apply IH.
  - intros Ha.
    assert (Ha' : lookup_path path a = None)
      by (destruct (lookup_path path a); [discriminate | reflexivity]).
    assert (E : key_cmp_loop lt gt path a a = Return (-1)).
    { clear H Ha. revert a Ha'.
      induction path as [|x path IH]; intros a Ha; cbn in *.
      - discriminate.
      - destruct (subscript a x) as [a'|]; [|reflexivity]. now apply IH. }
    rewrite E. split; reflexivity.
Qed.

Lemma list_sort_reverse_perm {A} (islt : A -> A -> result bool) reverse l :
  total_on islt l ->
  exists out,
    list_sort_reverse islt reverse l = Return out /\ Permutation l out.
Proof.
  intros Htot. unfold list_sort_reverse. destruct reverse.
  - destruct (list_sort_spec islt (fun _ => false)) with (l := rev l)
      as (out & -> & Hp & _); try discriminate.
    { eapply total_on_incl; [|exact Htot]. intros z Hz. now apply in_rev. }
    cbn [bind]. exists (rev out). split; [reflexivity|].
    rewrite <- Permutation_rev. rewrite <- Hp. apply Permutation_rev.
  - destruct (list_sort_spec islt (fun _ => false)) with (l := l)
      as (out & -> & Hp & _); try discriminate; [exact Htot|].
    exists out. split; [reflexivity | exact Hp].
Qed.

(** X6: With [reverse=True] the records that lack the path come last: every
    record that has the path stands before every record that lacks it
    (lists of fewer than 64 records). *)
Theorem sort_meta_data_list_reverse_missing_last ordered_by metas :
  (List.length metas < 64)%nat ->
  (forall a b la lb,
     In a metas -> In b metas ->
     lookup_path (split_dots ordered_by) a = Some la ->
     lookup_path (split_dots ordered_by) b = Some lb ->
     exists c, cmp lt gt la lb = Return c) ->
  exists out has lacks,
    sort_meta_data_list lt gt metas ordered_by true = Return out /\
    Permutation metas out /\
    out = has ++ lacks /\
    Forall (fun a => lacks_path ordered_by a = false) has /\
    Forall (fun a => lacks_path ordered_by a = true) lacks.
Proof.
  intros _ Hcmp. unfold sort_meta_data_list, list_sort_reverse.
  destruct (list_sort_spec (key_lt lt gt ordered_by) (lacks_path ordered_by)
              (key_lt_low_high lt gt ordered_by)
              (key_lt_high_low lt gt ordered_by) (rev metas))
    as (out & -> & Hperm & (ms & hs & -> & Hm & Hh)).
  { eapply total_on_incl; [|apply key_lt_total_on; exact Hcmp].
    intros z Hz. now apply in_rev. }
  cbn [bind]. exists (rev (ms ++ hs)), (rev hs), (rev ms).
  repeat split.
  - rewrite <- Permutation_rev, <- Hperm. apply Permutation_rev.
  - apply rev_app_distr.
  - now apply Forall_rev.
  - now apply Forall_rev.
Qed.

(** X7: When every record has the path and [<] on the values at its end is
    the strict part of a total preorder, the sort returns the records in
    the order of those values, ascending, or descending with
    [reverse=True], and it is stable: records with equal values keep their
    input order, in both directions (lists of fewer than 64 records). *)
Theorem sort_meta_data_list_stable (le_leaf : value -> value -> bool)
  ordered_by metas reverse :
  (List.length metas < 64)%nat ->
  (forall x y, le_leaf x y = true \/ le_leaf y x = true) ->
  (forall x y z,
     le_leaf x y = true -> le_leaf y z = true -> le_leaf x z = true) ->
  Forall (fun a => lacks_path ordered_by a = false) metas ->
  (forall a b,
     In a metas -> In b metas ->
     lt (leaf_of ordered_by a) (leaf_of ordered_by b)
       = Return (negb (le_leaf (leaf_of ordered_by b) (leaf_of ordered_by a)))
     /\ exists d, gt (leaf_of ordered_by a) (leaf_of ordered_by b) = Return d) ->
  exists out,
    sort_meta_data_list lt gt metas ordered_by reverse = Return out /\
    Permutation metas out /\
    stable_sorted (record_le le_leaf ordered_by) reverse metas out.
Proof.
  intros _ Htotal Htrans Hhas Hlt.
  assert (Hagree : agrees (key_lt lt gt ordered_by)
                     (record_le le_leaf ordered_by) metas).
  { intros a b Ha Hb. unfold key_lt, key_cmp, record_le.
    rewrite Forall_forall in Hhas.
    pose proof (Hhas a Ha) as Hla. pose proof (Hhas b Hb) as Hlb.
    destruct (Hlt a b Ha Hb) as [Hltab [d Hgt]].
    unfold lacks_path, leaf_of in *.
    destruct (lookup_path (split_dots ordered_by) a) as [la|] eqn:Ea;
      [|discriminate].
    destruct (lookup_path (split_dots ordered_by) b) as [lb|] eqn:Eb;
      [|discriminate].
    rewrite (key_cmp_loop_leaves _ _ _ _ _ _ _ Ea Eb).
    unfold cmp. rewrite Hltab. cbn [bind].
    destruct (le_leaf lb la); cbn [negb]; [|reflexivity].
    rewrite Hgt. cbn [bind]. destruct d; reflexivity. }
  unfold sort_meta_data_list.
  destruct (list_sort_reverse_sorted (key_lt lt gt ordered_by)
              (record_le le_leaf ordered_by)) with (reverse := reverse)
              (l := metas) as (out & Hout & Hsorted).
  - intros a b. apply Htotal.
  - intros a b c. apply Htrans.
  - exact Hagree.
  - exists out. repeat split; [exact Hout | | apply Hsorted | apply Hsorted].
    destruct (list_sort_reverse_perm (key_lt lt gt ordered_by) reverse metas)
      as (out' & Hout' & Hp).
    + intros a b Ha Hb. rewrite (Hagree a b Ha Hb). eauto.
    + congruence.
Qed.

End SorterOrder.

Lemma key_cmp_missing_field_witness :
  key_cmp simple_lt simple_gt "file.size"
    (VDict [("file", VDict [("name", VStr "a")])])
    (VDict [("file", VDict [("name", VStr "a")])]) = Return (-1).
Proof.
  apply (key_cmp_missing_field simple_lt simple_gt "file.size"
           (VDict [("file", VDict [("name", VStr "a")])])
           (VDict [("file", VDict [("name", VStr "a")])])).
  - left. reflexivity.
  - reflexivity.
Defined.

Lemma int_le_total x y : int_le x y = true \/ int_le y x = true.
Proof. unfold int_le. destruct (Z.leb_spec0 (match x with VInt n => n | _ => 0 end)
  (match y with VInt n => n | _ => 0 end)); [now left|]. right. apply Z.leb_le. lia.
Qed.

Lemma int_le_trans x y z :
  int_le x y = true -> int_le y z = true -> int_le x z = true.
Proof. unfold int_le. rewrite !Z.leb_le. lia. Qed.

Lemma sort_meta_data_list_reverse_missing_last_witness :
  exists out has lacks,
    sort_meta_data_list simple_lt simple_gt
      [VDict [("name", VStr "a")]; VDict [("file", VDict [("size", VInt 3)])]]
      "file.size" true = Return out /\
    out = has ++ lacks /\
    Forall (fun a => lacks_path "file.size" a = false) has /\
    Forall (fun a => lacks_path "file.size" a = true) lacks.
Proof.
  destruct (sort_meta_data_list_reverse_missing_last simple_lt simple_gt
              "file.size"
              [VDict [("name", VStr "a")];
               VDict [("file", VDict [("size", VInt 3)])]])
    as (out & has & lacks & H1 & _ & H2 & H3 & H4).
  - cbn. lia.
  - intros a b la lb Ha Hb Hla Hlb. cbn in Ha, Hb.
    destruct Ha as [<-|[<-|[]]]; destruct Hb as [<-|[<-|[]]];
      vm_compute in Hla, Hlb; try discriminate;
      injection Hla as <-; injection Hlb as <-;
      eexists; vm_compute; reflexivity.
  - exists out, has, lacks. repeat split; assumption.
Defined.

Lemma sort_meta_data_list_stable_witness :
  exists out,
    sort_meta_data_list simple_lt simple_gt
      [VDict [("size", VInt 3); ("name", VStr "a")];
       VDict [("size", VInt 1); ("name", VStr "b")];
       VDict [("size", VInt 3); ("name", VStr "c")]]
      "size" false = Return out /\
    stable_sorted (record_le int_le "size") false
      [VDict [("size", VInt 3); ("name", VStr "a")];
       VDict [("size", VInt 1); ("name", VStr "b")];
       VDict [("size", VInt 3); ("name", VStr "c")]] out.
Proof.
  destruct (sort_meta_data_list_stable simple_lt simple_gt int_le "size"
              [VDict [("size", VInt 3); ("name", VStr "a")];
               VDict [("size", VInt 1); ("name", VStr "b")];
               VDict [("size", VInt 3); ("name", VStr "c")]] false)
    as (out & H1 & _ & H2).
  - cbn. lia.
  - apply int_le_total.
  - apply int_le_trans.
  - repeat constructor.
  - intros a b Ha Hb. cbn in Ha, Hb.
    destruct Ha as [<-|[<-|[<-|[]]]]; destruct Hb as [<-|[<-|[<-|[]]]];
      (split; [vm_compute; reflexivity | eexists; vm_compute; reflexivity]).
  - exists out. split; assumption.
Defined.

(** ** Text renderer: the subclass against the library encoder *)

Lemma join_items_returns {A} separator (f g : A -> result string) items :
  Forall (fun a => forall s, f a = Return s -> g a = Return s) items ->
  forall first s,
    join_items separator first (map f items) = Return s ->
    join_items separator first (map g items) = Return s.
Proof.
  induction 1 as [|a l Ha _ IH]; intros first s; cbn [map join_items];
    [auto|].
  destruct (f a) as [sa|e] eqn:Ea; cbn [bind]; [|discriminate].
  rewrite (Ha sa eq_refl). cbn [bind].
  destruct (join_items separator false (map f l)) as [r|e] eqn:El;
    cbn [bind]; [|discriminate].
  rewrite (IH false r El). cbn [bind]. auto.
Qed.

Lemma enclose_returns {A} opening closing level (f g : A -> result string)
  items :
  Forall (fun a => forall s, f a = Return s -> g a = Return s) items ->
  forall s,
    enclose opening closing level (map f items) = Return s ->
    enclose opening closing level (map g items) = Return s.
Proof.
  intros H s. destruct items as [|a l]; [auto|].
  unfold enclose. cbn [map].
  change (f a :: map f l) with (map f (a :: l)).
  change (g a :: map g l) with (map g (a :: l)).
  destruct (join_items _ true (map f (a :: l))) as [body|e] eqn:E;
    cbn [bind]; [|discriminate].
  rewrite (join_items_returns _ f g (a :: l) H true body E). auto.
Qed.

Lemma iterencode_extends float_repr :
  forall o level text,
    iterencode float_repr json_JSONEncoder level o = Return text ->
    iterencode float_repr JSONEncoder level o = Return text.
Proof.
  induction o as [ | b | n | x | s | data | items IH | items IH | items IH
                 | | j IH | ] using object_induction; intros level text;
    try (cbn; auto; discriminate).
  - cbn [iterencode]. apply enclose_returns.
    eapply Forall_impl; [|exact IH]. intros a Ha. apply Ha.
  - cbn [iterencode]. apply enclose_returns.
    eapply Forall_impl; [|exact IH]. intros a Ha. apply Ha.
  - cbn [iterencode]. apply enclose_returns.
    eapply Forall_impl; [|exact IH]. intros [k v] Hv s. cbn [snd] in Hv.
    destruct (encode_key float_repr k) as [ks|e]; cbn [bind]; [|discriminate].
    destruct (iterencode float_repr json_JSONEncoder (S level) v)
      as [sv|e] eqn:Ev; cbn [bind]; [|discriminate].
    rewrite (Hv (S level) sv Ev). auto.
Qed.

(** X8: Overriding [default] only adds to the library's encoder: whenever
    [json.JSONEncoder] returns a text for an object, the encoder of this
    module returns the same text, so that it raises only where the
    library's encoder raises too. *)
Theorem json_encoder_extends float_repr o level :
  (forall text,
     iterencode float_repr json_JSONEncoder level o = Return text ->
     iterencode float_repr JSONEncoder level o = Return text) /\
  (forall e,
     iterencode float_repr JSONEncoder level o = Raise e ->
     exists e', iterencode float_repr json_JSONEncoder level o = Raise e').
Proof.
  split.
  - apply iterencode_extends.
  - intros e He.
    destruct (iterencode float_repr json_JSONEncoder level o) as [text|e']
      eqn:E; [|eauto].
    apply iterencode_extends in E. congruence.
Qed.

Lemma json_encoder_extends_witness :
  iterencode (fun _ => "0.0") JSONEncoder 0
    (OList [OInt 1; ODict [(KStr "a", OStr "b")]])
  = Return ("[" ++ newline ++ "    1," ++ newline ++ "    {" ++ newline
            ++ "        " ++ dquote ++ "a" ++ dquote ++ ": " ++ dquote ++ "b"
            ++ dquote ++ newline ++ "    }" ++ newline ++ "]")%string.
Proof.
  apply (json_encoder_extends (fun _ => "0.0")
           (OList [OInt 1; ODict [(KStr "a", OStr "b")]]) 0).
  vm_compute. reflexivity.
Defined.

(** ** Size formatting: the unit and the overflow *)

Lemma of_int_exact (n : Z) :
  Z.abs n < 2 ^ 53 -> Float.of_int n = Return (Float.mk n 0).
Proof.
  intros Hn. unfold Float.of_int.
  destruct (Z.leb_spec (Z.log2 (Z.abs n) + 1) 53) as [_|Hb]; [reflexivity|].
  assert (Z.log2 (Z.abs n) < 53).
  { destruct (Z.eq_dec (Z.abs n) 0) as [E|E]; [rewrite E; cbn; lia|].
    apply Z.log2_lt_pow2; lia. }
  lia.
Qed.

Lemma abs_ltb_scaled (n : Z) (j : nat) :
  (1 <= j)%nat ->
  Float.abs_ltb (Float.div_pow2 (Float.mk n 0) (10 * Z.of_nat j)) 1024
  = (Z.abs n <? 1024 ^ (Z.of_nat j + 1)).
Proof.
  intros Hj. unfold Float.abs_ltb, Float.div_pow2.
  cbn [Float.mant Float.expo].
  destruct (Z.leb_spec 0 (0 - 10 * Z.of_nat j)) as [|_]; [lia|].
  f_equal. replace (- (0 - 10 * Z.of_nat j)) with (10 * Z.of_nat j) by lia.
  change 1024 with (2 ^ 10).
  rewrite <- !Z.pow_mul_r, <- Z.pow_add_r by lia. f_equal. lia.
Qed.

(** X9: Below [2^53] bytes the conversion to float is exact, and the unit is
    the one whose power of 1024 brackets the size: for
    [1024^k <= abs n < 1024^(k+1)] the result is [n / 1024^k], rounded to
    one decimal with ties to even, followed by the prefix number [k]. *)
Theorem sizeof_fmt_unit (n : Z) (k : nat) (suffix : string) :
  (1 <= k <= 5)%nat ->
  1024 ^ Z.of_nat k <= Z.abs n < 1024 ^ (Z.of_nat k + 1) ->
  Z.abs n < 2 ^ 53 ->
  sizeof_fmt (Int n) suffix =
  Return (Float.format_1f (Float.mk n (- (10 * Z.of_nat k)))
            ++ nth k units EmptyString ++ suffix)%string.
Proof.
  intros Hk Hn H53. rewrite sizeof_fmt_refines_spec. unfold sizeof_fmt_spec.
  assert (H1024 : 1024 <= Z.abs n).
  { apply Z.le_trans with (1024 ^ Z.of_nat k); [|lia].
    replace 1024 with (1024 ^ 1) at 1 by reflexivity.
    apply Z.pow_le_mono_r; lia. }
  destruct (Z.ltb_spec (Z.abs n) 1024) as [|_]; [lia|].
  rewrite (of_int_exact n H53). cbn [bind seq find].
  rewrite !abs_ltb_scaled by lia.
  destruct k as [|[|[|[|[|[|k]]]]]]; try lia;
    match type of Hn with
    | ?a <= _ < ?b =>
        let a' := eval vm_compute in a in
        let b' := eval vm_compute in b in
        change a with a' in Hn; change b with b' in Hn
    end;
    repeat match goal with
           | |- context [Z.abs n <? ?c] =>
               let c' := eval vm_compute in c in
               destruct (Z.ltb_spec (Z.abs n) c);
               [try (exfalso; change c with c' in *; lia)
               | try (exfalso; change c with c' in *; lia)]
           end;
    reflexivity.
Qed.

Lemma sizeof_fmt_unit_witness :
  sizeof_fmt (Int 5242880) "B" = Return "5.0MiB".
Proof.
  rewrite (sizeof_fmt_unit 5242880 2 "B").
  - vm_compute. reflexivity.
  - lia.
  - cbn. lia.
  - cbn. lia.
Defined.

(** X10: An integer of magnitude [2^1024] or more does not convert to a float:
    [sizeof_fmt] raises [OverflowError] on it. *)
Theorem sizeof_fmt_overflow (n : Z) (suffix : string) :
  2 ^ 1024 <= Z.abs n ->
  sizeof_fmt (Int n) suffix = Raise OverflowError.
Proof.
  intros Hn. rewrite sizeof_fmt_refines_spec. unfold sizeof_fmt_spec.
  assert (H1024 : 1024 < 2 ^ 1024).
  { replace 1024 with (2 ^ 10) at 1 by reflexivity.
    apply Z.pow_lt_mono_r; lia. }
  destruct (Z.ltb_spec (Z.abs n) 1024) as [|_]; [lia|].
  unfold Float.of_int.
  set (a := Z.abs n) in *.
  assert (Ha : 0 < a) by lia.
  assert (Hlog : 1024 <= Z.log2 a) by (apply Z.log2_le_pow2; lia).
  destruct (Z.leb_spec (Z.log2 a + 1) 53) as [|_]; [lia|].
  set (sh := Z.log2 a + 1 - 53).
  assert (Hsh : 0 < sh) by (subst sh; lia).
  pose proof (Z.log2_spec a Ha) as [Hlo _].
  assert (Hpow : 2 ^ Z.log2 a = 2 ^ 52 * 2 ^ sh).
  { rewrite <- Z.pow_add_r by lia. f_equal. subst sh. lia. }
  assert (H2sh : 0 < 2 ^ sh) by (apply Z.pow_pos_nonneg; lia).
  assert (Hq : 2 ^ 52 <= a / 2 ^ sh).
  { apply Z.div_le_lower_bound; [exact H2sh|]. rewrite Z.mul_comm. lia. }
  match goal with
  | |- context [if ?c then a / 2 ^ sh + 1 else a / 2 ^ sh] =>
      set (q' := if c then a / 2 ^ sh + 1 else a / 2 ^ sh)
  end.
  assert (Hq' : 2 ^ 52 <= q').
  { subst q'. destruct (_ || _); lia. }
  assert (Hbig : 2 ^ 1024 <= q' * 2 ^ sh).
  { apply Z.le_trans with (2 ^ 52 * 2 ^ sh).
    - rewrite <- Hpow. apply Z.pow_le_mono_r; lia.
    - apply Z.mul_le_mono_nonneg_r; lia. }
  destruct (Z.leb_spec (2 ^ 1024) (q' * 2 ^ sh)) as [_|]; [reflexivity | lia].
Qed.

Lemma sizeof_fmt_overflow_witness :
  sizeof_fmt (Int (2 ^ 1024)) "B" = Raise OverflowError.
Proof.
  apply (sizeof_fmt_overflow (2 ^ 1024) "B").
  vm_compute. discriminate.
Defined.

(** ** [Email]: what is serialized and what comes back *)

Lemma dict_get_set_other items k k' v :
  String.eqb k k' = false ->
  dict_get (dict_set items k v) k' = dict_get items k'.
Proof.
  intros Hk. induction items as [|[k0 v0] items IH]; cbn.
  - now rewrite Hk.
  - destruct (String.eqb k0 k) eqn:E0; cbn.
    + apply String.eqb_eq in E0. subst k0. now rewrite Hk.
    + destruct (String.eqb k0 k'); [reflexivity | exact IH].
Qed.

Lemma dict_get_set_same items k v :
  dict_get (dict_set items k v) k = Some v.
Proof.
  induction items as [|[k0 v0] items IH]; cbn.
  - now rewrite String.eqb_refl.
  - destruct (String.eqb k0 k) eqn:E0; cbn.
    + now rewrite String.eqb_refl.
    + now rewrite E0.
Qed.

Lemma dict_set_keys items k v :
  forall k', In k' (map fst (dict_set items k v)) ->
             k' = k \/ In k' (map fst items).
Proof.
  induction items as [|[k0 v0] items IH]; cbn; intros k' H.
  - destruct H as [<-|[]]. now left.
  - destruct (String.eqb k0 k) eqn:E0; cbn in H.
    + apply String.eqb_eq in E0. subst k0. destruct H as [<-|H]; auto.
    + destruct H as [<-|H]; [auto|]. apply IH in H. tauto.
Qed.

(** What [__json__] holds for one attribute after the loop has gone
    through [names]. *)
Lemma json_loop_get e x :
  forall names ret,
    NoDup (map attribute_name names) ->
    dict_get
      (fold_left
         (fun ret y =>
            if negb (left_out (getattr e y))
            then dict_set ret (attribute_name y) (getattr e y) else ret)
         names ret) (attribute_name x) =
    if existsb (fun y => String.eqb (attribute_name y) (attribute_name x)) names
    then if left_out (getattr e x) then dict_get ret (attribute_name x)
         else Some (getattr e x)
    else dict_get ret (attribute_name x).
Proof.
  assert (Hinj : forall y, String.eqb (attribute_name y) (attribute_name x) = true
                           -> y = x).
  { intros y; destruct y, x; cbn; intros H; try reflexivity; discriminate. }
  induction names as [|y names IH]; intros ret Hnd; [reflexivity|].
  cbn [fold_left existsb map] in *.
  inversion Hnd as [|? ? Hnotin Hnd']; subst.
  rewrite (IH _ Hnd').
  destruct (String.eqb (attribute_name y) (attribute_name x)) eqn:Eyx.
  - apply Hinj in Eyx. subst y. cbn [orb].
    assert (Hno : existsb (fun y => String.eqb (attribute_name y)
                                      (attribute_name x)) names = false).
    { apply Bool.not_true_is_false. intros Hex.
      apply existsb_exists in Hex. destruct Hex as (z & Hz & Ez).
      apply Hinj in Ez. subst z. apply Hnotin. now apply in_map. }
    rewrite Hno.
    destruct (left_out (getattr e x)); cbn [negb]; [reflexivity|].
    apply dict_get_set_same.
  - cbn [orb].
    assert (E : dict_get
                  (if negb (left_out (getattr e y))
                   then dict_set ret (attribute_name y) (getattr e y)
                   else ret) (attribute_name x)
                = dict_get ret (attribute_name x)).
    { destruct (negb (left_out (getattr e y))); [|reflexivity].
      now apply dict_get_set_other. }
    rewrite E. reflexivity.
Qed.

(** X11: The dict of [__json__] always holds the sender under ['from'], it
    holds an attribute exactly when the attribute is neither [None] nor
    the empty list, and it never holds a key ['password']: the password
    does not get into the serialized form. *)
Theorem Email_json_contents (e : Email) :
  exists items,
    Email_json e = VDict items /\
    dict_get items "from" = Some (from_ e) /\
    (forall x,
       dict_get items (attribute_name x) =
       if left_out (getattr e x) then None else Some (getattr e x)) /\
    ~ In "password" (map fst items).
Proof.
  unfold Email_json. eexists. split; [reflexivity|].
  assert (Hnd : NoDup (map attribute_name json_attributes)).
  { cbn. repeat constructor; cbn; intuition discriminate. }
  repeat split.
  - assert (G : forall names ret,
               dict_get ret "from" = Some (from_ e) ->
               dict_get
                 (fold_left
                    (fun ret y =>
                       if negb (left_out (getattr e y))
                       then dict_set ret (attribute_name y) (getattr e y)
                       else ret) names ret) "from" = Some (from_ e)).
    { induction names as [|y names IH]; intros ret Hret; [exact Hret|].
      cbn [fold_left]. apply IH.
      destruct (negb (left_out (getattr e y))); [|exact Hret].
      rewrite dict_get_set_other; [exact Hret|]. now destruct y. }
    apply G. reflexivity.
  - intros x. rewrite (json_loop_get e x _ _ Hnd).
    destruct x; reflexivity.
  - assert (G : forall names ret k,
               In k (map fst
                       (fold_left
                          (fun ret y =>
                             if negb (left_out (getattr e y))
                             then dict_set ret (attribute_name y) (getattr e y)
                             else ret) names ret)) ->
               In k (map fst ret) \/ In k (map attribute_name names)).
    { induction names as [|y names IH]; intros ret k Hk; [now left|].
      cbn [fold_left] in Hk. apply IH in Hk. cbn [map In].
      destruct Hk as [Hk|Hk]; [|tauto].
      destruct (negb (left_out (getattr e y))); [|tauto].
      apply dict_set_keys in Hk. destruct Hk as [->|Hk]; tauto. }
    intros Hin. apply G in Hin. cbn in Hin.
    intuition discriminate.
Qed.

Lemma Email_ext (a b : Email) :
  from_ a = from_ b ->
  (forall x, getattr a x = getattr b x) ->
  password a = password b ->
  a = b.
Proof.
  destruct a, b. cbn. intros Hf Hx Hp.
  pose proof (Hx a_to). pose proof (Hx a_cc). pose proof (Hx a_bcc).
  pose proof (Hx a_subject). pose proof (Hx a_text). pose proof (Hx a_html).
  pose proof (Hx a_attachments). pose proof (Hx a_smtp).
  pose proof (Hx a_user_name). pose proof (Hx a_mode).
  cbn in *. congruence.
Qed.

Lemma getattr_setattr e y v x :
  getattr (setattr e y v) x =
  if String.eqb (attribute_name y) (attribute_name x) then v
  else getattr e x.
Proof. destruct y, x; reflexivity. Qed.

(** What the loop of [from_json] leaves in the instance. *)
Lemma from_json_loop items :
  forall names instance,
    NoDup (map attribute_name names) ->
    let r :=
      fold_left
        (fun instance x =>
           match dict_get items (attribute_name x) with
           | Some v => setattr instance x v
           | None => instance
           end) names instance in
    from_ r = from_ instance /\
    password r = password instance /\
    forall x,
      getattr r x =
      if existsb (fun y => String.eqb (attribute_name y) (attribute_name x))
           names
      then match dict_get items (attribute_name x) with
           | Some v => v
           | None => getattr instance x
           end
      else getattr instance x.
Proof.
  induction names as [|y names IH]; intros instance Hnd; cbn zeta.
  - repeat split.
  - inversion Hnd as [|? ? Hnotin Hnd']; subst.
    cbn [fold_left existsb].
    destruct (IH (match dict_get items (attribute_name y) with
                  | Some v => setattr instance y v
                  | None => instance
                  end) Hnd') as (Hf & Hp & Hx).
    cbn zeta in *. rewrite Hf, Hp. repeat split.
    + destruct (dict_get items (attribute_name y)); [now destruct y | reflexivity].
    + destruct (dict_get items (attribute_name y)); [now destruct y | reflexivity].
    + intros x. rewrite Hx.
      destruct (String.eqb (attribute_name y) (attribute_name x)) eqn:Eyx;
        cbn [orb].
      * assert (y = x) by (destruct y, x; cbn in Eyx; congruence). subst y.
        assert (Hno : existsb (fun y => String.eqb (attribute_name y)
                                          (attribute_name x)) names = false).
        { apply Bool.not_true_is_false. intros Hex.
          apply existsb_exists in Hex. destruct Hex as (z & Hz & Ez).
          assert (z = x) by (destruct z, x; cbn in Ez; congruence). subst z.
          apply Hnotin. now apply in_map. }
        rewrite Hno.
        destruct (dict_get items (attribute_name x)); [|reflexivity].
        rewrite getattr_setattr, String.eqb_refl. reflexivity.
      * assert (E : getattr
                      match dict_get items (attribute_name y) with
                      | Some v => setattr instance y v
                      | None => instance
                      end x = getattr instance x).
        { destruct (dict_get items (attribute_name y)); [|reflexivity].
          rewrite getattr_setattr, Eyx. reflexivity. }
        rewrite E. reflexivity.
Qed.

(** X12: Round trip: when the text parses to what [__json__] gave for [e],
    [from_json] builds the instance with the sender and every attribute of
    [e], except that an attribute that was [None] or the empty list comes
    back as the default of [__init__], and that the password is gone. *)
Theorem Email_from_json_roundtrip (loads : string -> result value)
  (js_str : string) (e : Email) :
  loads js_str = Return (Email_json e) ->
  Email_from_json loads js_str =
  Return {| from_ := from_ e;
            to := restored a_to (to e);
            cc := restored a_cc (cc e);
            bcc := restored a_bcc (bcc e);
            subject := restored a_subject (subject e);
            text := restored a_text (text e);
            html := restored a_html (html e);
            attachments := restored a_attachments (attachments e);
            smtp := restored a_smtp (smtp e);
            user_name := restored a_user_name (user_name e);
            password := VNone;
            mode := restored a_mode (mode e) |}.
Proof.
  intros Hloads. unfold Email_from_json. rewrite Hloads. cbn [bind].
  destruct (Email_json_contents e) as (items & -> & Hfrom & Hattr & _).
  rewrite Hfrom. f_equal.
  assert (Hnd : NoDup (map attribute_name json_attributes)).
  { cbn. repeat constructor; cbn; intuition discriminate. }
  destruct (from_json_loop items json_attributes
              (set_from Email_init (from_ e)) Hnd) as (Hf & Hp & Hx).
  cbn zeta in *. apply Email_ext.
  - rewrite Hf. reflexivity.
  - intros x. rewrite Hx, Hattr. unfold restored.
    destruct x; cbn [existsb json_attributes attribute_name String.eqb
                     Ascii.eqb Bool.eqb orb getattr];
      match goal with
      | |- context [left_out ?a] => destruct (left_out a)
      end; reflexivity.
  - rewrite Hp. reflexivity.
Qed.

Lemma Email_from_json_roundtrip_witness :
  exists e',
    Email_from_json
      (fun _ => Return (Email_json
                          (setattr (set_from Email_init (VStr "a@b.c"))
                             a_subject (VStr "hello"))))
      "{}" = Return e' /\
    subject e' = VStr "hello" /\ password e' = VNone.
Proof.
  eexists. split.
  - apply (Email_from_json_roundtrip _ "{}"
             (setattr (set_from Email_init (VStr "a@b.c")) a_subject
                (VStr "hello"))).
    reflexivity.
  - split; reflexivity.
Defined.

(** X13: Without a ['from'] key [from_json] raises [KeyError], and on a parsed
    value that is no dict it raises [TypeError]; nothing else makes it
    fail once the text has parsed. *)
Theorem Email_from_json_errors (loads : string -> result value)
  (js_str : string) (js : value) :
  loads js_str = Return js ->
  match js with
  | VDict items =>
      match dict_get items "from" with
      | Some v =>
          exists e, Email_from_json loads js_str = Return e /\ from_ e = v
      | None => Email_from_json loads js_str = Raise (KeyError "from")
      end
  | _ => Email_from_json loads js_str = Raise TypeError
  end.
Proof.
  intros Hloads. unfold Email_from_json. rewrite Hloads. cbn [bind].
  destruct js; try reflexivity.
  destruct (dict_get items "from") as [v|]; [|reflexivity].
  eexists. split; [reflexivity|].
  assert (Hnd : NoDup (map attribute_name json_attributes)).
  { cbn. repeat constructor; cbn; intuition discriminate. }
  destruct (from_json_loop items json_attributes (set_from Email_init v) Hnd)
    as (Hf & _).
  cbn zeta in Hf. rewrite Hf. reflexivity.
Qed.

Lemma Email_from_json_errors_witness :
  Email_from_json (fun _ => Return (VDict [("to", VList [])])) "{}"
  = Raise (KeyError "from").
Proof.
  apply (Email_from_json_errors (fun _ => Return (VDict [("to", VList [])]))
           "{}" (VDict [("to", VList [])])).
  reflexivity.
Defined.

(** ** [send_grouped_files] *)

Section SendGroupedFilesProps.

Variable getsize : string -> Z.

Lemma append_last_map {A B} (g : A -> B) (groups : list (list A)) (x : A) :
  append_last (map (map g) groups) (g x) =
  (groups' <- append_last groups x ;; Return (map (map g) groups')).
Proof.
  induction groups as [|h [|h' groups] IH]; [reflexivity | |].
  - cbn. now rewrite map_app.
  - change (append_last (map (map g) (h :: h' :: groups)) (g x))
      with (rest' <- append_last (map (map g) (h' :: groups)) (g x) ;;
            Return (map g h :: rest')).
    rewrite IH.
    change (append_last (h :: h' :: groups) x)
      with (rest' <- append_last (h' :: groups) x ;; Return (h :: rest')).
    destruct (append_last (h' :: groups) x); reflexivity.
Qed.

Lemma file_loop_simulates max_size files :
  forall groups total,
    for_each (file_group_step getsize max_size)
      (map (map (fun x => File.name (file x))) groups, total) files =
    ('(groups', total') <-
       for_each (group_step max_size) (groups, total) (map (fun f => plain_file f (getsize f)) files) ;;
     Return (map (map (fun x => File.name (file x))) groups', total')).
Proof.
  induction files as [|f files IH]; intros groups total; [reflexivity|].
  cbn [for_each map]. cbn beta. unfold file_group_step, group_step.
  change (File.size (file (plain_file f (getsize f)))) with (getsize f).
  destruct (getsize f >? max_size); [reflexivity|].
  destruct (getsize f + total <? max_size).
  - change f with (File.name (file (plain_file f (getsize f)))) at 1.
    rewrite (append_last_map (fun x => File.name (file x))).
    destruct (append_last groups (plain_file f (getsize f))) as [groups'|e]; cbn [bind];
      [|reflexivity].
    apply IH.
  - cbn [bind].
    change [[f]] with (map (map (fun x => File.name (file x))) [[plain_file f (getsize f)]]).
    rewrite <- map_app. apply IH.
Qed.

Lemma file_loop_simulates_records max_size metas :
  Forall (fun x => getsize (File.name (file x)) = File.size (file x)) metas ->
  forall groups total,
    for_each (file_group_step getsize max_size)
      (map (map (fun x => File.name (file x))) groups, total)
      (map (fun x => File.name (file x)) metas) =
    ('(groups', total') <-
       for_each (group_step max_size) (groups, total) metas ;;
     Return (map (map (fun x => File.name (file x))) groups', total')).
Proof.
  induction 1 as [|x metas Hx _ IH]; intros groups total; [reflexivity|].
  cbn [for_each map]. unfold file_group_step, group_step. rewrite Hx.
  destruct (File.size (file x) >? max_size); [reflexivity|].
  destruct (File.size (file x) + total <? max_size).
  - rewrite (append_last_map (fun x => File.name (file x))).
    destruct (append_last groups x) as [groups'|e]; cbn [bind];
      [|reflexivity].
    apply IH.
  - cbn [bind].
    change [[File.name (file x)]]
      with (map (map (fun x => File.name (file x))) [[x]]).
    rewrite <- map_app. apply IH.
Qed.

(** X14: The grouping loop of [send_grouped_files] is the one of
    [meta_data2groups]: on the file names of metadata records whose sizes
    are the ones the file system reports, it returns the same groups, by
    name, or raises the same exception with the same message. *)
Theorem file_groups_as_meta_data2groups metas max_size :
  Forall (fun x => getsize (File.name (file x)) = File.size (file x)) metas ->
  file_groups getsize (map (fun x => File.name (file x)) metas) max_size =
  (groups <- meta_data2groups metas max_size ;;
   Return (map (map (fun x => File.name (file x))) groups)).
Proof.
  intros Hsizes. unfold file_groups, meta_data2groups.
  pose proof (file_loop_simulates_records max_size metas Hsizes [[]] 0) as E.
  cbn [map] in E. rewrite E.
  destruct (for_each (group_step max_size) ([[]], 0) metas)
    as [[groups total]|e]; reflexivity.
Qed.

End SendGroupedFilesProps.

Lemma file_groups_as_meta_data2groups_witness :
  file_groups (fun f => Z.of_nat (String.length f))
    (map (fun x => File.name (file x))
       [plain_file "aaaa" 4; plain_file "bbb" 3; plain_file "ccccc" 5]) 10
  = Return [["aaaa"; "bbb"]; ["ccccc"]].
Proof.
  rewrite (file_groups_as_meta_data2groups (fun f => Z.of_nat (String.length f))).
  - reflexivity.
  - repeat constructor.
Defined.

Section SendGroupedFilesTrace.

Variable getsize : string -> Z.
Variables getmtime getctime getatime : string -> Float.t.
Variable send : Email -> result (Email * string).

(** The sending loop hands one instance per group to [send], with the
    group as its attachments. *)
Lemma send_loop_trace groups :
  (forall e, exists e' ret, send e = Return (e', ret)) ->
  forall start eml done,
    exists eml' new,
      for_each (send_step send) (eml, done)
        (combine (seq start (List.length groups)) groups)
      = Return (eml', done ++ new) /\
      map (fun d => attachments (fst d)) new
      = map (fun g => VList (map VStr g)) groups /\
      (forall g rest, groups = g :: rest ->
         exists e line more,
           new = (e, line) :: more /\
           from_ e = from_ eml /\ to e = to eml /\
           subject e =
             VStr ("batch mailer task " ++ str_of_int (Z.of_nat start))%string).
Proof.
  intros Hsend.
  induction groups as [|g groups IH]; intros start eml done.
  - exists eml, []. rewrite app_nil_r. repeat split. intros g rest [=].
  - cbn [List.length seq combine for_each]. unfold send_step at 1.
    set (e := setattr _ a_attachments _).
    destruct (Hsend e) as (e' & ret & ->). cbn [bind].
    match goal with
    | |- context [(e', done ++ [?entry])] => set (sent := entry)
    end.
    destruct (IH (S start) e' (done ++ [sent])) as (eml' & new & -> & Hatt & _).
    exists eml', (sent :: new). rewrite <- app_assoc. repeat split.
    + cbn [map fst]. rewrite Hatt. reflexivity.
    + intros g' rest [= <- <-]. exists e, (snd sent), new.
      repeat split.
Qed.

(** X15: Sending goes group by group: when every [send] returns, one instance
    is handed to [send] for each group in turn, with the group as its
    attachments, so that all attachments together are the (sorted) files,
    each one once and in order.  There is always a first instance, with the
    sender as given and the recipients as given, or the sender alone when
    no recipients were given; with no files at all, that one instance is
    sent without attachments. *)
Theorem send_grouped_files_trace sender recipients files ordered_by
  max_size kwd files' :
  (forall e, exists e' ret, send e = Return (e', ret)) ->
  sorted_files getsize getmtime getctime getatime files ordered_by
    = Return files' ->
  Forall (fun f => getsize f <= max_size) files' ->
  exists groups done first line more,
    file_groups getsize files' max_size = Return groups /\
    send_grouped_files getsize getmtime getctime getatime send
      sender recipients files ordered_by max_size kwd = Return done /\
    map (fun d => attachments (fst d)) done
      = map (fun g => VList (map VStr g)) groups /\
    List.concat groups = files' /\
    done = (first, line) :: more /\
    from_ first = sender /\
    to first = match recipients with
               | VNone => VList [sender]
               | _ => recipients
               end.
Proof.
  intros Hsend Hsorted Hsizes. unfold send_grouped_files.
  rewrite Hsorted. cbn [bind].
  unfold file_groups.
  pose proof (file_loop_simulates getsize max_size files' [[]] 0) as E.
  cbn [map] in E. rewrite E. clear E.
  destruct (group_loop_returns max_size
              (map (fun f => plain_file f (getsize f)) files') [] 0)
    as (gs & t & -> & Hconcat & Hne).
  { rewrite Forall_map. exact Hsizes. }
  cbn [bind].
  set (groups := map (map (fun x => File.name (file x))) gs).
  destruct (send_loop_trace groups Hsend 0%nat
              (setattr (set_from kwd sender) a_to
                 match recipients with
                 | VNone => VList [sender]
                 | _ => recipients
                 end) [])
    as (eml' & new & -> & Hatt & Hfirst).
  cbn [bind app].
  destruct gs as [|g0 gs']; [contradiction|].
  destruct (Hfirst _ _ eq_refl) as (e & line & more & -> & Hf & Ht & _).
  exists groups, ((e, line) :: more), e, line, more.
  repeat split; try assumption.
  subst groups. cbn [app] in Hconcat.
  rewrite <- concat_map, Hconcat, map_map. apply map_id.
Qed.

(** X16: Nothing is sent before the files are checked: an [ordered_by] that is
    none of the seven names of [sort_func] raises [KeyError], and without
    [ordered_by] the first file larger than [max_size] raises the size
    exception; both happen whatever [send] would do. *)
Theorem send_grouped_files_checks_first sender recipients max_size kwd :
  (forall files name,
     ~ In name ["file_name"; "size"; "date"; "time"; "modified"; "created";
                "accessed"] ->
     send_grouped_files getsize getmtime getctime getatime send
       sender recipients files (Some name) max_size kwd
     = Raise (KeyError name)) /\
  (forall before f after,
     Forall (fun g => getsize g <= max_size) before ->
     max_size < getsize f ->
     send_grouped_files getsize getmtime getctime getatime send
       sender recipients (before ++ f :: after) None max_size kwd
     = Raise (Exception (file_exceed_message f (getsize f) max_size))).
Proof.
  split.
  - intros files name Hname. unfold send_grouped_files, sorted_files.
    assert (Hkey : sort_func getsize getmtime getctime getatime name
                   = Raise (KeyError name)).
    { unfold sort_func. cbn [In] in Hname.
      repeat match goal with
             | |- context [String.eqb name ?k] =>
                 destruct (String.eqb_spec name k) as [->|_]; [tauto|]
             end.
      reflexivity. }
    rewrite Hkey. reflexivity.
  - intros before f after Hbefore Hf.
    unfold send_grouped_files, sorted_files, file_groups. cbn [bind].
    pose proof (file_loop_simulates getsize max_size (before ++ f :: after)
                  [[]] 0) as E.
    cbn [map] in E. rewrite E. clear E.
    rewrite map_app. cbn [map].
    rewrite (group_loop_raises max_size); [reflexivity | | exact Hf].
    rewrite Forall_map. exact Hbefore.
Qed.

End SendGroupedFilesTrace.

Lemma send_grouped_files_trace_witness :
  exists done,
    send_grouped_files (fun _ => 4) (fun _ => Float.mk 0 0)
      (fun _ => Float.mk 0 0) (fun _ => Float.mk 0 0)
      (fun e => Return (e, "ok"))
      (VStr "a@b.c") VNone ["x"; "y"; "z"] None 10 Email_init = Return done /\
    map (fun d => attachments (fst d)) done
    = [VList [VStr "x"; VStr "y"]; VList [VStr "z"]].
Proof.
  destruct (send_grouped_files_trace (fun _ => 4) (fun _ => Float.mk 0 0)
              (fun _ => Float.mk 0 0) (fun _ => Float.mk 0 0)
              (fun e => Return (e, "ok"))
              (VStr "a@b.c") VNone ["x"; "y"; "z"] None 10 Email_init
              ["x"; "y"; "z"])
    as (groups & done & first & line & more & Hg & Hd & Hatt & _).
  - intros e. eauto.
  - reflexivity.
  - repeat constructor; lia.
  - exists done. split; [exact Hd|].
    rewrite Hatt. vm_compute in Hg. injection Hg as <-. reflexivity.
Defined.

Lemma send_grouped_files_checks_first_witness :
  send_grouped_files (fun _ => 11) (fun _ => Float.mk 0 0)
    (fun _ => Float.mk 0 0) (fun _ => Float.mk 0 0)
    (fun e => Return (e, "ok"))
    (VStr "a@b.c") VNone ([] ++ "x" :: []) None 10 Email_init
  = Raise (Exception (file_exceed_message "x" 11 10)).
Proof.
  apply (send_grouped_files_checks_first (fun _ => 11) (fun _ => Float.mk 0 0)
           (fun _ => Float.mk 0 0) (fun _ => Float.mk 0 0)
           (fun e => Return (e, "ok")) (VStr "a@b.c") VNone 10 Email_init).
  - constructor.
  - lia.
Defined.

(** ** The pipeline: [files2groups] and [groups2Emails] *)

Lemma lookup_image_date (x : meta) :
  lookup_path (split_dots "image.date") (meta_value x)
  = option_map VStr (exif_date x).
Proof.
  unfold exif_date, meta_value.
  destruct (image x) as [im|]; [|reflexivity].
  cbn [opt_item]. unfold image_value.
  destruct (Image.date im) as [d|]; [reflexivity|].
  destruct (Image.device im), (Image.thumbnail im); reflexivity.
Qed.

Lemma lookup_file_size (x : meta) :
  lookup_path (split_dots "file.size") (meta_value x)
  = Some (VInt (File.size (file x))).
Proof. reflexivity. Qed.

Section PipelineProps.

Variables lt gt : value -> value -> result bool.
Variable get_meta_data : string -> Z -> result meta.

(** X17: Ordered by ['image.date'], the files that are no images, or carry no
    capture date, come first: when all metadata could be read and no file
    is larger than [max_size], [files2groups] returns groups that hold
    every record once, those without a date before those with one.  No
    record makes the sort fail, since all it compares are the date
    strings (fewer than 64 files). *)
Theorem files2groups_by_image_date files max_size thumbnail_size metas :
  (forall s1 s2, exists c, cmp lt gt (VStr s1) (VStr s2) = Return c) ->
  files2meta_data_list get_meta_data files thumbnail_size = Return metas ->
  (List.length metas < 64)%nat ->
  Forall (fun x => File.size (file x) <= max_size) metas ->
  exists groups undated dated,
    files2groups lt gt get_meta_data files max_size (Some "image.date")
      thumbnail_size false = Return groups /\
    List.concat groups = undated ++ dated /\
    Permutation metas (undated ++ dated) /\
    Forall (fun x => exif_date x = None) undated /\
    Forall (fun x => exif_date x <> None) dated.
Proof.
  intros Hcmp Hmetas _ Hsizes. unfold files2groups. rewrite Hmetas.
  cbn [bind]. unfold sort_records, list_sort_reverse.
  set (islt := fun a b => key_lt lt gt "image.date" (meta_value a) (meta_value b)).
  set (low := fun x => lacks_path "image.date" (meta_value x)).
  destruct (list_sort_spec islt low) with (l := metas)
    as (out & -> & Hperm & (ms & hs & -> & Hm & Hh)).
  - intros a b Ha Hb. apply key_lt_low_high; assumption.
  - intros a b Ha Hb. apply key_lt_high_low; assumption.
  - intros a b _ _. subst islt. cbn beta.
    apply (key_lt_total_on lt gt "image.date"
             [meta_value a; meta_value b]); [|now left | right; now left].
    intros u v lu lv Hu Hv Hlu Hlv.
    assert (G : forall w lw, In w [meta_value a; meta_value b] ->
                lookup_path (split_dots "image.date") w = Some lw ->
                exists s, lw = VStr s).
    { intros w lw [<-|[<-|[]]] Hw; rewrite lookup_image_date in Hw;
        destruct (exif_date _) as [s|]; try discriminate;
        injection Hw as <-; eauto. }
    destruct (G u lu Hu Hlu) as [s1 ->]. destruct (G v lv Hv Hlv) as [s2 ->].
    apply Hcmp.
  - cbn [bind].
    destruct (group_loop_returns max_size (ms ++ hs) [] 0) as (gs & t & E & Hc & _).
    { rewrite Forall_forall in Hsizes |- *. intros x Hx. apply Hsizes.
      eapply Permutation_in; [symmetry; exact Hperm | exact Hx]. }
    unfold meta_data2groups. rewrite E. cbn [bind].
    exists gs, ms, hs. repeat split; [exact Hc | exact Hperm | |].
    + eapply Forall_impl; [|exact Hm]. intros x Hx. subst low.
      unfold lacks_path in Hx. rewrite lookup_image_date in Hx.
      destruct (exif_date x); [discriminate | reflexivity].
    + eapply Forall_impl; [|exact Hh]. intros x Hx. subst low.
      unfold lacks_path in Hx. rewrite lookup_image_date in Hx.
      destruct (exif_date x); [discriminate | discriminate].
Qed.

(** X18: Ordered by ['file.size'], with [<] on [int]s, [files2groups] packs the
    records in the order of their sizes, ascending or, with
    [reverse=True], descending, and records of the same size in the order
    of the input files (fewer than 64 files). *)
Theorem files2groups_by_size files max_size thumbnail_size reverse metas :
  (forall m n, lt (VInt m) (VInt n) = Return (m <? n) /\
               exists d, gt (VInt m) (VInt n) = Return d) ->
  files2meta_data_list get_meta_data files thumbnail_size = Return metas ->
  (List.length metas < 64)%nat ->
  Forall (fun x => File.size (file x) <= max_size) metas ->
  exists groups,
    files2groups lt gt get_meta_data files max_size (Some "file.size")
      thumbnail_size reverse = Return groups /\
    Permutation metas (List.concat groups) /\
    stable_sorted (fun a b => File.size (file a) <=? File.size (file b))
      reverse metas (List.concat groups).
Proof.
  intros Hlt Hmetas _ Hsizes. unfold files2groups. rewrite Hmetas.
  cbn [bind]. unfold sort_records.
  set (islt := fun a b => key_lt lt gt "file.size" (meta_value a) (meta_value b)).
  set (le := fun a b : meta => File.size (file a) <=? File.size (file b)).
  assert (Hagree : agrees islt le metas).
  { intros a b _ _. subst islt le. cbn beta. unfold key_lt, key_cmp.
    rewrite (key_cmp_loop_leaves lt gt _ _ _ _ _
               (lookup_file_size a) (lookup_file_size b)).
    unfold cmp.
    destruct (Hlt (File.size (file a)) (File.size (file b))) as [-> [d Hd]].
    cbn [bind]. rewrite Z.ltb_antisym.
    destruct (File.size (file b) <=? File.size (file a)); cbn [negb];
      [|reflexivity].
    rewrite Hd. cbn [bind]. destruct d; reflexivity. }
  destruct (list_sort_reverse_sorted islt le) with (reverse := reverse)
    (l := metas) as (out & Hout & Hsorted).
  - intros a b. subst le. cbn beta.
    destruct (Z.leb_spec (File.size (file a)) (File.size (file b)));
      [now left|]. right. apply Z.leb_le. lia.
  - intros a b c. subst le. cbn beta. rewrite !Z.leb_le. lia.
  - exact Hagree.
  - rewrite Hout. cbn [bind].
    destruct (list_sort_reverse_perm islt reverse metas) as (out' & Hout' & Hp).
    { intros a b Ha Hb. rewrite (Hagree a b Ha Hb). eauto. }
    assert (out' = out) by congruence. subst out'.
    destruct (group_loop_returns max_size out [] 0) as (gs & t & E & Hc & _).
    { rewrite Forall_forall in Hsizes |- *. intros x Hx. apply Hsizes.
      eapply Permutation_in; [symmetry; exact Hp | exact Hx]. }
    unfold meta_data2groups. rewrite E. cbn [bind].
    exists gs. cbn [app] in Hc. rewrite Hc. repeat split; assumption || apply Hsorted.
Qed.

End PipelineProps.

Section EmailsProps.

Variable float_repr : Float.t -> string.
Variable group2html : group -> result string.

Lemma subject_loop_length title subject_fmt total groups :
  forall st subjects p i,
    for_each (subject_step title subject_fmt total) st groups
      = Return (subjects, p, i) ->
    List.length subjects
    = (List.length (fst (fst st)) + List.length groups)%nat.
Proof.
  induction groups as [|g groups IH]; intros [[s0 p0] i0] subjects p i H.
  - cbn in H. injection H as <- <- <-. cbn. lia.
  - cbn [for_each] in H. unfold subject_step at 1 in H.
    destruct (sizeof_fmt (Int (att_size g)) "B") as [size|e];
      cbn [bind] in H; [|discriminate].
    destruct (str_format subject_fmt _) as [this|e]; cbn [bind] in H;
      [|discriminate].
    apply IH in H. cbn [fst] in *. rewrite length_app in H. cbn in *. lia.
Qed.

Lemma emails_loop kwd subjects groups :
  (forall g, In g groups -> exists h, group2html g = Return h) ->
  forall start emails,
    (start + List.length groups <= List.length subjects)%nat ->
    exists new,
      for_each (email_step float_repr group2html subjects false kwd)
        emails (combine (seq start (List.length groups)) groups)
      = Return (emails ++ new) /\
      map attachments new = map paths groups /\
      map subject new
      = map VStr (firstn (List.length groups) (skipn start subjects)) /\
      Forall (fun eml => from_ eml = from_ kwd /\ to eml = to kwd /\
                         password eml = password kwd) new.
Proof.
  intros Hhtml. induction groups as [|g groups IH]; intros start emails Hlen.
  - exists []. rewrite app_nil_r. repeat split. constructor.
  - cbn [List.length seq combine for_each] in *.
    unfold email_step at 1.
    destruct (nth_error subjects start) as [subj|] eqn:Hs.
    2:{ apply nth_error_None in Hs. lia. }
    unfold group2Email.
    destruct (group2text_records float_repr g) as [text ->]. cbn [bind].
    destruct (Hhtml g (or_introl eq_refl)) as [h ->]. cbn [bind].
    match goal with
    | |- context [emails ++ [?e]] => set (eml := e)
    end.
    destruct (IH (fun g' Hg' => Hhtml g' (or_intror Hg')) (S start)
                (emails ++ [eml])) as (new & -> & Hatt & Hsub & Hall);
      [lia|].
    exists (eml :: new). rewrite <- app_assoc. repeat split.
    + cbn [map]. rewrite Hatt. reflexivity.
    + cbn [map]. rewrite Hsub.
      destruct (nth_error_firstn_skipn subjects start subj Hs) as [_ ->].
      reflexivity.
    + constructor; [|exact Hall]. repeat split.
Qed.

(** X19: One email per group: when the subjects can be made and every group can
    be rendered as HTML, [groups2Emails] returns one instance for each
    group in turn, with the subject of that group, the paths of the
    group's records as attachments and the sender, recipients and password
    of the keyword arguments.  On the groups of [meta_data2groups] the
    attachments of all emails together are the paths of the input records,
    each one once and in order.  A [subject] among the keyword arguments
    is not accepted: the call then raises [TypeError]. *)
Theorem groups2Emails_attachments meta_data max_size groups title
  subject_fmt kwd subjects :
  meta_data2groups meta_data max_size = Return groups ->
  groups2subjects groups title subject_fmt = Return subjects ->
  (forall g, In g groups -> exists h, group2html g = Return h) ->
  (exists emails,
     groups2Emails float_repr group2html groups title subject_fmt false kwd
       = Return emails /\
     map attachments emails = map paths groups /\
     map subject emails = map VStr subjects /\
     Forall (fun eml => from_ eml = from_ kwd /\ to eml = to kwd /\
                        password eml = password kwd) emails /\
     List.concat (map (map (fun x => File.path (file x))) groups)
     = map (fun x => File.path (file x)) meta_data) /\
  groups2Emails float_repr group2html groups title subject_fmt true kwd
    = Raise TypeError.
Proof.
  intros Hgroups Hsubjects Hhtml. unfold groups2Emails.
  rewrite Hsubjects. cbn [bind].
  assert (Hlen : List.length subjects = List.length groups).
  { unfold groups2subjects in Hsubjects.
    destruct (for_each _ _ groups) as [[[s p] i]|e] eqn:E;
      cbn [bind] in Hsubjects; [|discriminate].
    injection Hsubjects as <-.
    apply subject_loop_length in E. cbn in E. exact E. }
  unfold meta_data2groups in Hgroups.
  destruct (for_each (group_step max_size) ([[]], 0) meta_data)
    as [[gs t]|e] eqn:E; cbn [bind] in Hgroups; [|discriminate].
  injection Hgroups as <-. split.
  - destruct (emails_loop kwd subjects gs Hhtml 0%nat [])
      as (new & -> & Hatt & Hsub & Hall); [lia|].
    cbn [app]. exists new. repeat split; try assumption.
    + rewrite Hsub. cbn [skipn]. rewrite <- Hlen, firstn_all. reflexivity.
    + apply group_loop_concat in E. cbn [app] in E.
      rewrite <- concat_map, E. reflexivity.
  - apply group_loop_shape in E. destruct E as (suffix & later & -> & _).
    destruct subjects as [|subj subjects]; [discriminate|].
    reflexivity.
Qed.

End EmailsProps.

Lemma simple_cmp_str s1 s2 :
  exists c, cmp simple_lt simple_gt (VStr s1) (VStr s2) = Return c.
Proof.
  unfold cmp, simple_gt, simple_lt. cbn [bind].
  destruct (String.ltb s1 s2); [eauto|].
  cbn [bind]. destruct (String.ltb s2 s1); eauto.
Qed.

Lemma files2groups_by_image_date_witness :
  exists groups undated dated,
    files2groups simple_lt simple_gt
      (fun name _ =>
         Return (if String.eqb name "notes.txt" then plain_file name 3
                 else photo name 4 "2020:01:02 15:04:05"))
      ["a.jpg"; "notes.txt"] 10 (Some "image.date") 80 false
    = Return groups /\
    List.concat groups = undated ++ dated /\
    Forall (fun x => exif_date x = None) undated /\
    Forall (fun x => exif_date x <> None) dated.
Proof.
  destruct (files2groups_by_image_date simple_lt simple_gt
              (fun name _ =>
                 Return (if String.eqb name "notes.txt" then plain_file name 3
                         else photo name 4 "2020:01:02 15:04:05"))
              ["a.jpg"; "notes.txt"] 10 80
              [photo "a.jpg" 4 "2020:01:02 15:04:05"; plain_file "notes.txt" 3])
    as (groups & undated & dated & H1 & H2 & _ & H3 & H4).
  - apply simple_cmp_str.
  - reflexivity.
  - cbn. lia.
  - repeat constructor; cbn; lia.
  - exists groups, undated, dated. repeat split; assumption.
Defined.

Lemma files2groups_by_size_witness :
  exists groups,
    files2groups simple_lt simple_gt
      (fun name _ => Return (plain_file name (Z.of_nat (String.length name))))
      ["ccc"; "a"; "bb"] 10 (Some "file.size") 80 false = Return groups /\
    stable_sorted (fun a b => File.size (file a) <=? File.size (file b)) false
      [plain_file "ccc" 3; plain_file "a" 1; plain_file "bb" 2]
      (List.concat groups).
Proof.
  destruct (files2groups_by_size simple_lt simple_gt
              (fun name _ =>
                 Return (plain_file name (Z.of_nat (String.length name))))
              ["ccc"; "a"; "bb"] 10 80 false
              [plain_file "ccc" 3; plain_file "a" 1; plain_file "bb" 2])
    as (groups & H1 & _ & H2).
  - intros m n. split; [reflexivity | eexists; reflexivity].
  - reflexivity.
  - cbn. lia.
  - repeat constructor; cbn; lia.
  - exists groups. split; assumption.
Defined.

Lemma groups2Emails_attachments_witness :
  exists emails,
    groups2Emails (fun _ => "0.0") (fun _ => Return "<html></html>")
      [[plain_file "a" 4; plain_file "b" 3]; [plain_file "c" 5]]
      "T" default_subject_fmt false Email_init = Return emails /\
    map attachments emails
    = [VList [VStr "a"; VStr "b"]; VList [VStr "c"]].
Proof.
  destruct (groups2Emails_attachments (fun _ => "0.0")
              (fun _ => Return "<html></html>")
              [plain_file "a" 4; plain_file "b" 3; plain_file "c" 5] 10
              [[plain_file "a" 4; plain_file "b" 3]; [plain_file "c" 5]]
              "T" default_subject_fmt Email_init
              ["T #1 (1-2/3) 7B"; "T #2 (3-3/3) 5B"])
    as ((emails & H1 & H2 & _) & _).
  - reflexivity.
  - vm_compute. reflexivity.
  - intros g _. eauto.
  - exists emails. split; [exact H1 | exact H2].
Defined.

(** ** Subjects: a format that names an unknown field *)





